(* ===================================================================== *)
(* squiz: the offline service worker (src/service-worker.js)             *)
(*                                                                       *)
(* A shallow embedding of the worker's handlers over an in-memory model  *)
(* of the host platform (connectivity flag, clock, IndexedDB database,   *)
(* CacheStorage, network, window clients), followed by the properties    *)
(* of the offline queue, the retry engine, the cache migration and the   *)
(* lifecycle handlers.                                                   *)
(* ===================================================================== *)

From Stdlib Require Import ZArith Lia Ascii String.
From stdpp Require Import base tactics option list strings pretty gmap.

Local Open Scope string_scope.
Local Open Scope list_scope.

#[local] Set Warnings "-clear-no-such-hyp".

(* --------------------------------------------------------------------- *)
(* 1. Host platform data                                                 *)
(* --------------------------------------------------------------------- *)

(* A Headers object, as its entries() iterator lists it. *)
Abbreviation Headers := (list (string * string)).

(* A fetch Response: the fields the worker reads. *)
Record Response := mkResponse {
  status : Z;
  statusText : string;
  resp_headers : Headers;
  resp_body : string;
  redirected : bool;
}.

(* A fetch Request. [body] is the content of the request's body stream,
   None when the request has no body. URLs are origin-relative. *)
Record Request := mkRequest {
  url : string;
  method : string;
  body : option string;
  headers : Headers;
  mode : string;
  credentials : string;
  cache : string;
}.

(* The object written by store_request: keyPath "timestamp", headers as
   the plain object built by serialize_headers, body only when present. *)
Record QueuedRequest := mkQueued {
  timestamp : Z;
  q_url : string;
  q_method : string;
  q_body : option string;
  q_headers : gmap string string;
  q_mode : string;
  q_credentials : string;
}.

(* A Cache: (request url, response) pairs in insertion order.
   CacheStorage: (cache name, cache) pairs in creation order. *)
Abbreviation Cache := (list (string * Response)).
Abbreviation CacheStorage := (list (string * Cache)).

(* The IndexedDB database "web-app-db" as the worker can find it. *)
Inductive Database :=
  | DbUnavailable                            (* open() fires onerror *)
  | DbAbsent                                 (* no such database yet *)
  | DbNoStore                                (* version 1, without "request-store" *)
  | DbReady (records : list QueuedRequest).  (* "request-store", ascending keys *)

(* How a fetch() promise settles. A fulfilled promise carries the value
   the worker tests with [if (fetch_response)]. *)
Inductive FetchResult :=
  | Fulfilled (r : option Response)
  | Rejected.

(* A window client of the origin; [controlled] tells whether this worker
   is its controller. *)
Record Client := mkClient {
  client_id : string;
  controlled : bool;
}.

(* self.registration.sync: absent, or present with register() either
   resolving or rejecting. *)
Inductive SyncManager := NoSync | SyncGranted | SyncDenied.

Record World := mkWorld {
  online : bool;                          (* self.navigator.onLine *)
  now : Z;                                (* Date.now() *)
  sync : SyncManager;
  database : Database;
  caches : CacheStorage;
  net : nat -> Request -> FetchResult;    (* answer to the n-th request that went out *)
  clients : list Client;
  sent : list Request;                    (* requests that went out, oldest first *)
  sync_tags : list string;                (* tags registered with the sync manager *)
  skipped_waiting : bool;                 (* self.skipWaiting() was called *)
}.

Definition set_database (d : Database) (w : World) : World :=
  mkWorld (online w) (now w) (sync w) d (caches w) (net w) (clients w)
          (sent w) (sync_tags w) (skipped_waiting w).

Definition set_caches (cs : CacheStorage) (w : World) : World :=
  mkWorld (online w) (now w) (sync w) (database w) cs (net w) (clients w)
          (sent w) (sync_tags w) (skipped_waiting w).

Definition set_clients (cl : list Client) (w : World) : World :=
  mkWorld (online w) (now w) (sync w) (database w) (caches w) (net w) cl
          (sent w) (sync_tags w) (skipped_waiting w).

Definition set_sent (s : list Request) (w : World) : World :=
  mkWorld (online w) (now w) (sync w) (database w) (caches w) (net w)
          (clients w) s (sync_tags w) (skipped_waiting w).

Definition set_sync_tags (t : list string) (w : World) : World :=
  mkWorld (online w) (now w) (sync w) (database w) (caches w) (net w)
          (clients w) (sent w) t (skipped_waiting w).

Definition set_skipped_waiting (b : bool) (w : World) : World :=
  mkWorld (online w) (now w) (sync w) (database w) (caches w) (net w)
          (clients w) (sent w) (sync_tags w) b.

(* --------------------------------------------------------------------- *)
(* 2. Promises: a state monad with rejection and non-settlement          *)
(* --------------------------------------------------------------------- *)

Inductive Outcome (A : Type) :=
  | Value (a : A)      (* the promise fulfils *)
  | Throws             (* the promise rejects / the code throws *)
  | Hangs.             (* the promise never settles *)
Arguments Value {A} a.
Arguments Throws {A}.
Arguments Hangs {A}.

Definition Async (A : Type) : Type := World -> Outcome A * World.

Definition ret {A} (a : A) : Async A := fun w => (Value a, w).

Definition bind {A B} (m : Async A) (f : A -> Async B) : Async B := fun w =>
  match m w with
  | (Value a, w') => f a w'
  | (Throws, w') => (Throws, w')
  | (Hangs, w') => (Hangs, w')
  end.

(* const x = await m; k *)
Notation "x <- m ;; k" := (bind m (fun x => k))
  (at level 100, m at next level, right associativity).
Notation "'_' <- m ;; k" := (bind m (fun _ => k))
  (at level 100, m at next level, right associativity).

Definition throw {A} : Async A := fun w => (Throws, w).

(* try { m } catch (_) { h } *)
Definition try_catch {A} (m h : Async A) : Async A := fun w =>
  match m w with
  | (Throws, w') => h w'
  | r => r
  end.

(* A promise that is started and not awaited: its effects happen, its
   outcome is not looked at. *)
Definition detached {A} (m : Async A) : Async unit := fun w =>
  (Value tt, snd (m w)).

(* Promise.allSettled status of one promise. *)
Inductive Settled (A : Type) :=
  | fulfilled (v : A)
  | rejected.
Arguments fulfilled {A} v.
Arguments rejected {A}.

Definition is_fulfilled {A} (s : Settled A) : bool :=
  match s with fulfilled _ => true | rejected => false end.

(* The promises are created (their effects issued) in list order; each
   settles on its own and a rejection is recorded, not propagated. *)
Fixpoint all_settled {A} (ps : list (Async A)) : Async (list (Settled A)) :=
  match ps with
  | [] => ret []
  | p :: ps' => fun w =>
      match p w with
      | (Value v, w') => (rest <- all_settled ps' ;; ret (fulfilled v :: rest)) w'
      | (Throws, w') => (rest <- all_settled ps' ;; ret (rejected :: rest)) w'
      | (Hangs, w') => (Hangs, snd (all_settled ps' w'))
      end
  end.

(* Promise.all of two promises that were both already started. *)
Definition promise_all2 {A B} (p : Async A) (q : Async B) : Async (A * B) := fun w =>
  let '(ra, w1) := p w in
  let '(rb, w2) := q w1 in
  match ra, rb with
  | Value a, Value b => (Value (a, b), w2)
  | Throws, _ | _, Throws => (Throws, w2)
  | _, _ => (Hangs, w2)
  end.

(* array.forEach((x, index) => ...) with an effectful callback *)
Fixpoint for_each_indexed {A} (f : A -> nat -> Async unit) (l : list A) (i : nat)
  : Async unit :=
  match l with
  | [] => ret tt
  | x :: l' => _ <- f x i ;; for_each_indexed f l' (S i)
  end.

(* for (const x of l) { await f(x) } *)
Fixpoint for_of {A} (f : A -> Async unit) (l : list A) : Async unit :=
  match l with
  | [] => ret tt
  | x :: l' => _ <- f x ;; for_of f l'
  end.

(* --------------------------------------------------------------------- *)
(* 3. Host platform operations                                           *)
(* --------------------------------------------------------------------- *)

(* String.prototype.includes *)
Fixpoint starts_with (p s : string) : bool :=
  match p, s with
  | EmptyString, _ => true
  | String _ _, EmptyString => false
  | String a p', String b s' => if Ascii.eqb a b then starts_with p' s' else false
  end.

Fixpoint includes (s sub : string) : bool :=
  starts_with sub s ||
  match s with
  | EmptyString => false
  | String _ s' => includes s' sub
  end.

(* A URL without its query string. *)
Fixpoint strip_search (u : string) : string :=
  match u with
  | EmptyString => EmptyString
  | String c u' => if Ascii.eqb c "?"%char then EmptyString else String c (strip_search u')
  end.

Definition url_matches (ignoreSearch : bool) (key u : string) : bool :=
  if ignoreSearch then String.eqb (strip_search key) (strip_search u)
  else String.eqb key u.

(* Cache.match inside one cache: the first entry whose url matches. *)
Definition cache_lookup (ignoreSearch : bool) (u : string) (c : Cache) : option Response :=
  snd <$> List.find (fun e => url_matches ignoreSearch (fst e) u) c.

(* Cache.put: entries stored under the same url are replaced. Entries
   are keyed by url alone; Vary headers are not modelled. *)
Definition cache_insert (u : string) (r : Response) (c : Cache) : Cache :=
  filter (fun e => fst e ≠ u) c ++ [(u, r)].

Definition storage_lookup (name : string) (cs : CacheStorage) : option Cache :=
  snd <$> List.find (fun e => String.eqb (fst e) name) cs.

Definition storage_alter (f : Cache -> Cache) (name : string) (cs : CacheStorage)
  : CacheStorage :=
  (fun e => if String.eqb (fst e) name then (fst e, f (snd e)) else e) <$> cs.

(* CacheStorage.match: the caches are searched in creation order. *)
Fixpoint storage_match (ignoreSearch : bool) (u : string) (cs : CacheStorage)
  : option Response :=
  match cs with
  | [] => None
  | (_, c) :: cs' =>
      match cache_lookup ignoreSearch u c with
      | Some r => Some r
      | None => storage_match ignoreSearch u cs'
      end
  end.

(* caches.match(request, {ignoreVary: true, ignoreSearch}): only GET
   requests match (ignoreMethod is not set). *)
Definition caches_match (request : Request) (ignoreSearch : bool)
  : Async (option Response) := fun w =>
  (Value (if String.eqb (method request) "GET"
          then storage_match ignoreSearch (url request) (caches w)
          else None), w).

(* caches.match("<url>"): a GET request for the url, default options. *)
Definition caches_match_url (u : string) : Async (option Response) := fun w =>
  (Value (storage_match false u (caches w)), w).

Definition caches_keys : Async (list string) := fun w =>
  (Value (fst <$> caches w), w).

(* caches.open(name): creates the cache when missing; the handle is the name. *)
Definition caches_open (name : string) : Async string := fun w =>
  match storage_lookup name (caches w) with
  | Some _ => (Value name, w)
  | None => (Value name, set_caches (caches w ++ [(name, [])]) w)
  end.

Definition caches_delete (name : string) : Async bool := fun w =>
  (Value (bool_decide (is_Some (storage_lookup name (caches w)))),
   set_caches (filter (fun e => fst e ≠ name) (caches w)) w).

(* cache.keys(), already mapped to the requests' urls *)
Definition cache_keys (handle : string) : Async (list string) := fun w =>
  (Value (fst <$> default [] (storage_lookup handle (caches w))), w).

Definition cache_match (handle : string) (u : string) : Async (option Response) := fun w =>
  (Value (storage_lookup handle (caches w) ≫= cache_lookup false u), w).

Definition cache_put (handle : string) (u : string) (r : Response) : Async unit := fun w =>
  (Value tt, set_caches (storage_alter (cache_insert u r) handle (caches w)) w).

(* fetch(request) on a Request object: the request goes out and the
   network answers. *)
Definition fetch (request : Request) : Async (option Response) := fun w =>
  let w' := set_sent (sent w ++ [request]) w in
  match net w (length (sent w)) request with
  | Fulfilled r => (Value r, w')
  | Rejected => (Throws, w')
  end.

(* Byte-uppercase. *)
Definition ascii_upper (c : ascii) : ascii :=
  let n := nat_of_ascii c in
  if Nat.leb 97 n && Nat.leb n 122 then ascii_of_nat (n - 32) else c.

Fixpoint uppercase (s : string) : string :=
  match s with
  | EmptyString => EmptyString
  | String c s' => String (ascii_upper c) (uppercase s')
  end.

(* The characters of an HTTP token. *)
Definition is_tchar (c : ascii) : bool :=
  let n := nat_of_ascii c in
  (Nat.leb 48 n && Nat.leb n 57) || (Nat.leb 65 n && Nat.leb n 90)
  || (Nat.leb 97 n && Nat.leb n 122)
  || bool_decide (n ∈ [33; 35; 36; 37; 38; 39; 42; 43; 45; 46; 94; 95; 96; 124; 126]%nat).

Fixpoint all_tchar (s : string) : bool :=
  match s with
  | EmptyString => true
  | String c s' => is_tchar c && all_tchar s'
  end.

Definition is_method (m : string) : bool :=
  negb (String.eqb m EmptyString) && all_tchar m.

Definition forbidden_method (m : string) : bool :=
  bool_decide (uppercase m ∈ ["CONNECT"; "TRACE"; "TRACK"]).

Definition normalize_method (m : string) : string :=
  if bool_decide (uppercase m ∈ ["DELETE"; "GET"; "HEAD"; "OPTIONS"; "POST"; "PUT"])
  then uppercase m else m.

(* The RequestInit dictionary { method, headers, body, mode, credentials }. *)
Record RequestInit := mkInit {
  init_method : string;
  init_headers : Headers;
  init_body : option string;
  init_mode : string;
  init_credentials : string;
}.

(* new Request(url, init), None when the constructor throws a TypeError:
   mode "navigate" or not a RequestMode, credentials not a
   RequestCredentials, a method that is no token or is forbidden, a
   method outside GET, HEAD, POST in mode "no-cors", a body with GET or
   HEAD. [headers] holds the headers as given in the init. *)
Definition new_Request (u : string) (init : RequestInit) : option Request :=
  let m := normalize_method (init_method init) in
  if String.eqb (init_mode init) "navigate" then None
  else if negb (bool_decide (init_mode init ∈ ["same-origin"; "no-cors"; "cors"])) then None
  else if negb (bool_decide (init_credentials init ∈ ["omit"; "same-origin"; "include"]))
  then None
  else if negb (is_method (init_method init)) || forbidden_method (init_method init)
  then None
  else if String.eqb (init_mode init) "no-cors"
          && negb (bool_decide (m ∈ ["GET"; "HEAD"; "POST"]))
  then None
  else if bool_decide (is_Some (init_body init)) && bool_decide (m ∈ ["GET"; "HEAD"])
  then None
  else Some (mkRequest u m (init_body init) (init_headers init) (init_mode init)
                       (init_credentials init) "default").

(* fetch(url, init): the promise rejects, and nothing goes out, when the
   Request constructor throws. *)
Definition fetch_init (u : string) (init : RequestInit) : Async (option Response) :=
  match new_Request u init with
  | Some request => fetch request
  | None => throw
  end.

(* An ok status. *)
Definition ok_status (r : Response) : bool :=
  (200 <=? status r)%Z && (status r <=? 299)%Z.

(* The values of a comma-separated header, white space dropped. *)
Fixpoint field_values (v : string) (cur : string) : list string :=
  match v with
  | EmptyString => [cur]
  | String c v' =>
      if Ascii.eqb c "," then cur :: field_values v' EmptyString
      else if Ascii.eqb c " " || Ascii.eqb c "009" then field_values v' cur
      else field_values v' (String.append cur (String c EmptyString))
  end.

(* A Vary header with the value "*". *)
Definition vary_star (r : Response) : bool :=
  existsb (fun e => String.eqb (uppercase (fst e)) "VARY"
                    && bool_decide ("*" ∈ field_values (snd e) EmptyString))
          (resp_headers r).

(* The responses Cache.addAll stores: an ok status other than 206 and
   no Vary: * header. *)
Definition addAll_accepts (r : Response) : bool :=
  ok_status r && negb (status r =? 206)%Z && negb (vary_star r).

Definition settled_addable (s : Settled (option Response)) : option Response :=
  match s with
  | fulfilled (Some r) => if addAll_accepts r then Some r else None
  | _ => None
  end.

(* cache.addAll(requests): a request that is not a GET rejects at once;
   otherwise every request is fetched, and the entries are written only
   when every fetch produced a response addAll stores and no two
   requests have the same url. *)
Definition cache_addAll (handle : string) (requests : list Request) : Async unit :=
  if negb (forallb (fun q => String.eqb (method q) "GET") requests) then throw
  else
    responses <- all_settled (fetch <$> requests) ;;
    match mapM settled_addable responses with
    | Some rs =>
        if bool_decide (NoDup (url <$> requests))
        then for_of (fun e => cache_put handle (url (fst e)) (snd e)) (zip requests rs)
        else throw
    | None => throw
    end.

(* IDBObjectStore.add / getAll / delete on "request-store", through the
   promise proxy of get_store_factory. *)
Fixpoint store_insert (r : QueuedRequest) (recs : list QueuedRequest)
  : list QueuedRequest :=
  match recs with
  | [] => [r]
  | x :: xs => if bool_decide (timestamp r < timestamp x)%Z then r :: x :: xs
               else x :: store_insert r xs
  end.

Definition has_key (k : Z) (recs : list QueuedRequest) : bool :=
  existsb (fun r => Z.eqb (timestamp r) k) recs.

Definition store_add (r : QueuedRequest) : Async unit := fun w =>
  match database w with
  | DbReady recs =>
      if has_key (timestamp r) recs then (Throws, w)
      else (Value tt, set_database (DbReady (store_insert r recs)) w)
  | _ => (Throws, w)
  end.

Definition store_getAll : Async (list QueuedRequest) := fun w =>
  match database w with
  | DbReady recs => (Value recs, w)
  | _ => (Throws, w)
  end.

Definition store_delete (k : Z) : Async unit := fun w =>
  match database w with
  | DbReady recs =>
      (Value tt, set_database (DbReady (filter (fun r => timestamp r ≠ k) recs)) w)
  | _ => (Throws, w)
  end.

Definition date_now : Async Z := fun w => (Value (now w), w).

(* "sync" in self.registration *)
Definition sync_in_registration : Async bool := fun w =>
  (Value (match sync w with NoSync => false | _ => true end), w).

Definition sync_register (tag : string) : Async unit := fun w =>
  match sync w with
  | SyncGranted => (Value tt, set_sync_tags (sync_tags w ++ [tag]) w)
  | _ => (Throws, w)
  end.

(* self.clients.matchAll({includeUncontrolled}) *)
Definition clients_matchAll (includeUncontrolled : bool) : Async (list Client) := fun w =>
  (Value (if includeUncontrolled then clients w
          else List.filter controlled (clients w)), w).

Definition skipWaiting : Async unit := fun w =>
  (Value tt, set_skipped_waiting true w).

(* self.clients.claim(): this worker becomes the controller of every client. *)
Definition clients_claim : Async unit := fun w =>
  (Value tt, set_clients ((fun c => mkClient (client_id c) true) <$> clients w) w).

(* --------------------------------------------------------------------- *)
(* 4. The service worker (src/service-worker.js)                         *)
(* --------------------------------------------------------------------- *)

Definition sw_version : N := 1.
Definition idb_version : N := 1.

(* `web-app-cache-${sw_version}` *)
Definition cache_name : string := String.append "web-app-cache-" (pretty sw_version).

Definition static_files : list string :=
  [ "/sw-registration.js";
    "/index.html";
    "/about/index.html";
    "/manifest.json";
    "/offline.html";
    "/src/img/icons/manifest-icon-192.maskable.png";
    "/src/img/icons/manifest-icon-512.maskable.png" ].

Definition routes : list string := ["/"; "/about"].

Definition files_to_cache : list string := routes ++ static_files.

Definition requests_to_retry_when_offline : list string := [].

Record StoreConfig := mkStoreConfig {
  store_name : string;
  keyPath : string;
}.

Record IdbConfig := mkIdbConfig {
  idb_name : string;
  version : N;
  requestStore : StoreConfig;
}.

Definition idb_config : IdbConfig :=
  mkIdbConfig "web-app-db" idb_version (mkStoreConfig "request-store" "timestamp").

Definition is_offline : Async bool := fun w => (Value (negb (online w)), w).

Definition is_request_eligible_for_retry (request : Request) : bool :=
  bool_decide (method request ∈ ["POST"; "PUT"; "DELETE"])
  || bool_decide (url request ∈ requests_to_retry_when_offline).

(* indexedDB.open(name, 1) with the upgrade handler that creates the
   stores of the configuration that are missing. The upgrade runs only
   when the database is created. *)
Definition create_indexed_db (config : IdbConfig) : Async unit := fun w =>
  match database w with
  | DbUnavailable => (Throws, w)
  | DbAbsent => (Value tt, set_database (DbReady []) w)
  | DbNoStore => (Value tt, w)
  | DbReady _ => (Value tt, w)
  end.

(* get_store_factory(db_name)(store, mode): indexedDB.open without an
   upgrade handler, then db.transaction(name, mode) inside onsuccess.
   When the object store is missing, transaction() throws inside the
   callback and the returned promise is never settled. *)
Definition get_store_factory (db_name : string) (store : StoreConfig) (mode : string)
  : Async unit := fun w =>
  match database w with
  | DbUnavailable => (Throws, w)
  | DbAbsent => (Hangs, set_database DbNoStore w)
  | DbNoStore => (Hangs, w)
  | DbReady _ => (Value tt, w)
  end.

Definition open_store : StoreConfig -> string -> Async unit :=
  get_store_factory (idb_name idb_config).

(* Object.fromEntries(headers.entries()): a later entry overwrites. *)
Definition serialize_headers (h : Headers) : gmap string string :=
  fold_left (fun o e => <[fst e := snd e]> o) h ∅.

(* new Headers(serialized_headers) *)
Definition new_Headers (o : gmap string string) : Headers := map_to_list o.

Definition store_request (request : Request) : Async unit :=
  let serialized_headers := serialize_headers (headers request) in
  try_catch
    (let stored_body := body request in
     timestamp <- date_now ;;
     _ <- open_store (requestStore idb_config) "readwrite" ;;
     _ <- store_add (mkQueued timestamp (url request) (method request) stored_body
                             serialized_headers (mode request) (credentials request)) ;;
     has_sync <- sync_in_registration ;;
     if has_sync then sync_register "retry-request" else ret tt)
    (ret tt).

(* { latestCacheName, outdatedCacheNames } *)
Definition get_cache_storage_names : Async (option string * list string) :=
  cache_names <- caches_keys ;;
  let outdated_cache_names :=
    List.filter (fun name => negb (includes name cache_name)) cache_names in
  let latest_cache_name :=
    List.find (fun name => includes name cache_name) cache_names in
  ret (latest_cache_name, outdated_cache_names).

Definition update_last_cache : Async unit :=
  names <- get_cache_storage_names ;;
  match names with
  | (None, _) => ret tt
  | (Some _, []) => ret tt
  | (Some latestCacheName, outdatedCacheNames) =>
      latest_cache <- caches_open latestCacheName ;;
      latest_cache_entries <- cache_keys latest_cache ;;
      for_of (fun outdated_cache_name =>
        outdated_cache <- caches_open outdated_cache_name ;;
        for_of (fun entry =>
          latest_cache_response <- cache_match latest_cache entry ;;
          match latest_cache_response with
          | Some r => cache_put outdated_cache entry r
          | None => throw   (* undefined.clone() *)
          end) latest_cache_entries) outdatedCacheNames
  end.

(* The result is the array of records, or the caught error. *)
Definition get_requests : Async (list QueuedRequest + unit) :=
  try_catch
    (_ <- open_store (requestStore idb_config) "readwrite" ;;
     recs <- store_getAll ;;
     ret (inl recs))
    (ret (inr tt)).

(* { method, headers, body, mode, credentials } of the replay of a record *)
Definition replay_init (r : QueuedRequest) : RequestInit :=
  mkInit (q_method r) (new_Headers (q_headers r)) (q_body r) (q_mode r)
         (q_credentials r).

Definition retry_requests : Async unit :=
  reqs <- get_requests ;;
  match reqs with
  | inr _ => @throw unit   (* reqs.map is not a function *)
  | inl reqs =>
      let requests := (fun r => fetch_init (q_url r) (replay_init r)) <$> reqs in
      responses <- all_settled requests ;;
      _ <- open_store (requestStore idb_config) "readwrite" ;;
      for_each_indexed (fun response index =>
        match reqs !! index with
        | None => throw
        | Some r =>
            let key := timestamp r in   (* reqs[index][keyPath] *)
            if is_fulfilled response then detached (store_delete key) else ret tt
        end) responses 0
  end.

(* new Request(file, { cache: "no-cache" }) *)
Definition precache_request (file : string) : Request :=
  mkRequest file "GET" None [] "cors" "same-origin" "no-cache".

(* The promise handed to e.waitUntil. *)
Definition install_handler : Async unit :=
  try_catch
    (cache <- caches_open cache_name ;;
     _ <- promise_all2 (cache_addAll cache (precache_request <$> files_to_cache))
                      (create_indexed_db idb_config) ;;
     ret tt)
    (ret tt).

(* The promise handed to e.waitUntil. *)
Definition activate_handler : Async unit :=
  names <- caches_keys ;;
  _ <- for_of (fun name => _ <- caches_delete name ;; ret tt)
             (filter (fun name => name ≠ cache_name) names) ;;
  ret tt.

(* new Response(body, { headers, status, statusText }) *)
Definition clean_redirect (response : Response) : Response :=
  mkResponse (status response) (statusText response) (resp_headers response)
             (resp_body response) false.

(* The promise handed to e.respondWith; None is undefined. *)
Definition fetch_handler (request : Request) : Async (option Response) :=
  try_catch
    (offline <- is_offline ;;
     if offline && is_request_eligible_for_retry request then
       _ <- store_request request ;;
       caches_match_url "/offline.html"
     else
       response <- caches_match request true ;;
       match response with
       | Some r => ret (Some (if redirected r then clean_redirect r else r))
       | None =>
           fetch_response <- fetch request ;;
           match fetch_response with
           | Some r => ret (Some r)
           | None => ret None
           end
       end)
    (caches_match_url "/offline.html").

Definition message_handler (type : string) : Async unit :=
  if String.eqb type "SKIP_WAITING" then
    clients <- clients_matchAll true ;;
    if Nat.ltb (length clients) 2 then
      _ <- skipWaiting ;;
      clients_claim
    else ret tt
  else if String.eqb type "PREPARE_CACHES_FOR_UPDATE" then
    update_last_cache
  else if String.eqb type "retry-requests" then
    has_sync <- sync_in_registration ;;
    if negb has_sync then retry_requests else ret tt
  else ret tt.

Definition sync_handler (tag : string) : Async unit :=
  if String.eqb tag "retry-request" then retry_requests else ret tt.

(* The install event: the worker is installed when the promise given to
   waitUntil fulfils and discarded when it rejects. *)
Inductive WorkerState := Installing | Installed | Redundant.

Definition dispatch_install (w : World) : WorkerState * World :=
  match install_handler w with
  | (Value _, w') => (Installed, w')
  | (Throws, w') => (Redundant, w')
  | (Hangs, w') => (Installing, w')
  end.

(* --------------------------------------------------------------------- *)
(* 5. Vocabulary of the properties                                       *)
(* --------------------------------------------------------------------- *)

(* Number of window clients this worker controls. *)
Definition controlled_count (w : World) : nat :=
  length (List.filter controlled (clients w)).

(* The record store_request writes for a request captured at time ts. *)
Definition queued_record (request : Request) (ts : Z) : QueuedRequest :=
  mkQueued ts (url request) (method request) (body request)
           (serialize_headers (headers request)) (mode request) (credentials request).

(* The records of the request store; none when there is no store. *)
Definition stored (w : World) : list QueuedRequest :=
  match database w with
  | DbReady recs => recs
  | _ => []
  end.

(* The effect of the sync registration that follows a successful add. *)
Definition after_sync_register (w : World) : World :=
  match sync w with
  | SyncGranted => set_sync_tags (sync_tags w ++ ["retry-request"]) w
  | _ => w
  end.

(* The cached offline fallback document: caches.match("/offline.html"). *)
Definition offline_fallback (w : World) : option Response :=
  storage_match false "/offline.html" (caches w).

(* What caches.match(request, {ignoreVary, ignoreSearch}) finds. *)
Definition cached_response (request : Request) (w : World) : option Response :=
  if String.eqb (method request) "GET"
  then storage_match true (url request) (caches w)
  else None.

Definition settle (r : FetchResult) : Settled (option Response) :=
  match r with
  | Fulfilled v => fulfilled v
  | Rejected => rejected
  end.

(* The statuses Promise.allSettled reports for fetches issued in order,
   the first of them being the n-th fetch of the worker. *)
Fixpoint fetch_outcomes (nt : nat → Request → FetchResult) (n : nat)
    (reqs : list Request) : list (Settled (option Response)) :=
  match reqs with
  | [] => []
  | q :: qs => settle (nt n q) :: fetch_outcomes nt (S n) qs
  end.

(* The request the replay of a record sends, None when the Request
   constructor refuses its init. *)
Definition replay_request (r : QueuedRequest) : option Request :=
  new_Request (q_url r) (replay_init r).

(* The statuses Promise.allSettled reports for the replays of the
   records, the first request that goes out being the n-th of the
   worker: a replay the constructor refuses is rejected and uses no
   network answer. *)
Fixpoint replay_outcomes (nt : nat → Request → FetchResult) (n : nat)
    (recs : list QueuedRequest) : list (Settled (option Response)) :=
  match recs with
  | [] => []
  | r :: rs =>
      match replay_request r with
      | Some q => settle (nt n q) :: replay_outcomes nt (S n) rs
      | None => rejected :: replay_outcomes nt n rs
      end
  end.

(* How the promise of the replay of r, the i-th record of recs, settles
   in a drain started in w. *)
Definition replay_settles (w : World) (recs : list QueuedRequest) (i : nat)
    (r : QueuedRequest) : Settled (option Response) :=
  match replay_request r with
  | Some q =>
      settle (net w (length (sent w) + length (omap replay_request (take i recs)))%nat q)
  | None => rejected
  end.

(* Keys of the records whose replay fulfilled, and the other records. *)
Fixpoint fulfilled_keys {A} (outs : list (Settled A)) (recs : list QueuedRequest)
  : list Z :=
  match outs, recs with
  | o :: os, r :: rs =>
      if is_fulfilled o then timestamp r :: fulfilled_keys os rs
      else fulfilled_keys os rs
  | _, _ => []
  end.

Fixpoint failed_records {A} (outs : list (Settled A)) (recs : list QueuedRequest)
  : list QueuedRequest :=
  match outs, recs with
  | o :: os, r :: rs =>
      if is_fulfilled o then failed_records os rs
      else r :: failed_records os rs
  | _, _ => []
  end.

(* The request store holds one record per key. *)
Definition store_wf (recs : list QueuedRequest) : Prop :=
  NoDup (timestamp <$> recs).

(* The inner loop of update_last_cache on one cache: every listed entry
   of the latest cache L is put into it. *)
Definition copy_entries (L : Cache) (entries : list string) (c : Cache) : Cache :=
  fold_left (fun c u =>
    match cache_lookup false u L with
    | Some r => cache_insert u r c
    | None => c
    end) entries c.

(* The outer loop on the cache storage. *)
Definition migrate (L : Cache) (entries names : list string) (cs : CacheStorage)
  : CacheStorage :=
  fold_left (fun cs o => storage_alter (copy_entries L entries) o cs) names cs.

(* self.addEventListener("install" | "activate" | "fetch" | "message" | "sync") *)
Inductive Event :=
  | EvInstall
  | EvActivate
  | EvFetch (request : Request)
  | EvMessage (type : string)
  | EvSync (tag : string).

Definition handle (e : Event) (w : World) : World :=
  match e with
  | EvInstall => snd (install_handler w)
  | EvActivate => snd (activate_handler w)
  | EvFetch request => snd (fetch_handler request w)
  | EvMessage type => snd (message_handler type w)
  | EvSync tag => snd (sync_handler tag w)
  end.

(* The events that run retry_requests. *)
Definition is_drain (e : Event) (w : World) : bool :=
  match e with
  | EvSync tag => String.eqb tag "retry-request"
  | EvMessage type =>
      String.eqb type "retry-requests"
      && match sync w with NoSync => true | _ => false end
  | _ => false
  end.

(* Operations that leave the database alone. *)
Definition keeps_database {A} (m : Async A) : Prop :=
  ∀ w, database (snd (m w)) = database w.

Definition precache_requests : list Request := precache_request <$> files_to_cache.

(* Some file of the precache list is not answered with a response that
   addAll stores: the fetch rejects, or the response has a status that
   is not ok or is 206, or carries Vary: *. *)
Definition population_fails (w : World) : Prop :=
  ∃ i file, files_to_cache !! i = Some file
            ∧ settled_addable
                (settle (net w (length (sent w) + i)%nat (precache_request file)))
              = None.

(* The same request with a query string appended to its url. *)
Definition with_query (request : Request) (q : string) : Request :=
  mkRequest (String.append (url request) (String "?" q)) (method request)
            (body request) (headers request) (mode request) (credentials request)
            (cache request).

(* --------------------------------------------------------------------- *)
(* 6. Scenarios                                                          *)
(* --------------------------------------------------------------------- *)

Definition world_with_caches (cs : CacheStorage) : World :=
  mkWorld true 0 NoSync (DbReady []) cs (fun _ _ => Rejected) [] [] [] false.

Definition world_with_clients (cl : list Client) : World :=
  mkWorld true 0 NoSync (DbReady []) [] (fun _ _ => Rejected) cl [] [] false.

(* The scenario of the specification: offline, POST to /submit. *)
Definition offline_page : Response :=
  mkResponse 200 "OK" [("content-type", "text/html")] "<h1>offline</h1>" false.

Definition submit_post : Request :=
  mkRequest "/submit" "POST" (Some "answer=42")
            [("content-type", "application/x-www-form-urlencoded")]
            "cors" "same-origin" "default".

Definition offline_world (db : Database) : World :=
  mkWorld false 1000 SyncGranted db
          [(cache_name, [("/offline.html", offline_page)])]
          (fun _ _ => Rejected) [] [] [] false.

Definition quiz_get : Request :=
  mkRequest "/quiz?id=7" "GET" None [] "cors" "same-origin" "default".

Definition online_world (cs : CacheStorage) (nt : nat → Request → FetchResult) : World :=
  mkWorld true 1000 SyncGranted (DbReady []) cs nt [] [] [] false.

Definition vote_record (ts : Z) (u : string) : QueuedRequest :=
  mkQueued ts u "POST" (Some "choice=b") ∅ "cors" "same-origin".

(* A network that rejects the first fetch and answers the others. *)
Definition first_fetch_fails (n : nat) (_ : Request) : FetchResult :=
  match n with
  | O => Rejected
  | S _ => Fulfilled (Some (mkResponse 201 "Created" [] EmptyString false))
  end.

Definition drain_world (recs : list QueuedRequest)
    (nt : nat → Request → FetchResult) : World :=
  mkWorld true 5000 NoSync (DbReady recs) [] nt [] [] [] false.

(* A server that answers every request with 500. *)
Definition server_error (_ : nat) (_ : Request) : FetchResult :=
  Fulfilled (Some (mkResponse 500 "Internal Server Error" [] EmptyString false)).

Definition old_page (b : string) : Response := mkResponse 200 "OK" [] b false.

(* An outdated snapshot created before the current one. *)
Definition update_world : World :=
  world_with_caches
    [ ("web-app-cache-0", [("/a", old_page "a1"); ("/c", old_page "c1")]);
      (cache_name, [("/a", old_page "a2"); ("/b", old_page "b2")]) ].

(* A first install while the network is down. *)
Definition install_world (db : Database) (nt : nat → Request → FetchResult) : World :=
  mkWorld true 0 NoSync db [] nt [] [] [] false.

(* A cached response that was stored after a redirect. *)
Definition redirected_page : Response :=
  mkResponse 200 "OK" [("content-type", "text/html")] "<h1>about</h1>" true.

Definition about_get : Request :=
  mkRequest "/about?ref=home" "GET" None [] "navigate" "include" "default".

(* A server that answers every request with 404. *)
Definition not_found (_ : nat) (_ : Request) : FetchResult :=
  Fulfilled (Some (mkResponse 404 "Not Found" [] "no such quiz" false)).

Definition patch_request : Request :=
  mkRequest "/profile" "PATCH" (Some "name=kim") [] "cors" "same-origin" "default".

(* An offline worker whose sync manager refuses registrations. *)
Definition sync_denied_world : World :=
  mkWorld false 1000 SyncDenied (DbReady [])
          [(cache_name, [("/offline.html", offline_page)])]
          (fun _ _ => Rejected) [] [] [] false.

(* An origin that serves every url with a 200 response carrying the url. *)
Definition origin_up (_ : nat) (r : Request) : FetchResult :=
  Fulfilled (Some (old_page (url r))).

(* A form submission: the browser gives a navigation the mode navigate. *)
Definition form_post : Request :=
  mkRequest "/submit" "POST" (Some "answer=42")
            [("content-type", "application/x-www-form-urlencoded")]
            "navigate" "include" "default".

(* An origin that answers every request with 201. *)
Definition origin_accepts (_ : nat) (_ : Request) : FetchResult :=
  Fulfilled (Some (mkResponse 201 "Created" [] EmptyString false)).

(* Connectivity is back and the origin accepts everything. *)
Definition back_online (w : World) : World :=
  mkWorld true 2000 (sync w) (database w) (caches w) origin_accepts
          (clients w) [] (sync_tags w) (skipped_waiting w).

(* --------------------------------------------------------------------- *)
(* 7. Basic facts about the model                                        *)
(* --------------------------------------------------------------------- *)

Ltac split_ands := repeat match goal with |- _ ∧ _ => split end.

Example cache_name_value : cache_name = "web-app-cache-1".
Proof. reflexivity. Qed.

Lemma set_caches_same w : set_caches (caches w) w = w.
Proof. by destruct w. Qed.

Lemma set_caches_twice a b w : set_caches a (set_caches b w) = set_caches a w.
Proof. by destruct w. Qed.

Lemma set_database_same w : set_database (database w) w = w.
Proof. by destruct w. Qed.

Lemma filter_ext_elem {A} (P Q : A → Prop) `{!∀ x, Decision (P x)} `{!∀ x, Decision (Q x)}
    (l : list A) :
  (∀ x, x ∈ l → (P x ↔ Q x)) → filter P l = filter Q l.
Proof.
  induction l as [|a l IH]; intros Hl; [done|].
  rewrite !filter_cons.
  assert (Ha : P a ↔ Q a) by (apply Hl; left).
  rewrite IH by (intros x Hx; apply Hl; by right).
  destruct (decide (P a)), (decide (Q a)); tauto.
Qed.

Lemma filter_all {A} (P : A → Prop) `{!∀ x, Decision (P x)} (l : list A) :
  (∀ x, x ∈ l → P x) → filter P l = l.
Proof.
  induction l as [|a l IH]; intros Hl; [done|].
  rewrite filter_cons_True by (apply Hl; left).
  f_equal. apply IH. intros x Hx. apply Hl. by right.
Qed.

(* String.prototype.includes on a name that starts with the pattern. *)
Lemma starts_with_app p s : starts_with p (String.append p s) = true.
Proof.
  induction p as [|a p IH]; simpl; [done|].
  by rewrite Ascii.eqb_refl.
Qed.

Lemma includes_prefix p s : includes (String.append p s) p = true.
Proof.
  destruct (String.append p s) eqn:E; simpl.
  - destruct p; [done|discriminate].
  - rewrite <- E, starts_with_app. done.
Qed.

Lemma append_nonempty_ne p s : s ≠ EmptyString → String.append p s ≠ p.
Proof.
  intros Hs. induction p as [|a p IH]; simpl; [done|].
  intros [=]. by apply IH.
Qed.

(* --------------------------------------------------------------------- *)
(* 8. Activation: deleting the outdated snapshots                        *)
(* --------------------------------------------------------------------- *)

Lemma for_of_caches_delete (l : list string) w :
  for_of (fun name => _ <- caches_delete name ;; ret tt) l w
  = (Value tt, set_caches (filter (λ e, e.1 ∉ l) (caches w)) w).
Proof.
  revert w. induction l as [|x l IH]; intros w; cbn [for_of].
  - unfold ret. rewrite filter_all, set_caches_same; [done|].
    intros e _. apply not_elem_of_nil.
  - unfold bind, caches_delete, ret.
    rewrite IH. f_equal. rewrite set_caches_twice. f_equal.
    destruct w; simpl. rewrite list_filter_filter.
    apply list_filter_iff. intros e. rewrite not_elem_of_cons. tauto.
Qed.

Lemma activate_handler_run w :
  activate_handler w
  = (Value tt, set_caches (filter (λ e, e.1 = cache_name) (caches w)) w).
Proof.
  unfold activate_handler, bind, caches_keys.
  rewrite for_of_caches_delete. unfold ret. do 2 f_equal.
  apply filter_ext_elem. intros e He.
  rewrite list_elem_of_filter. split.
  - intros Hn. destruct (decide (e.1 = cache_name)) as [|Hne]; [done|].
    exfalso. apply Hn. split; [done|]. apply list_elem_of_fmap. eauto.
  - intros Heq [Hne _]. done.
Qed.

Lemma fmap_fst_filter_name {B} (n : string) (cs : list (string * B)) :
  fst <$> filter (λ e, e.1 = n) cs = filter (λ name, name = n) (fst <$> cs).
Proof.
  induction cs as [|e cs IH]; [done|].
  rewrite fmap_cons, !filter_cons.
  destruct (decide (e.1 = n)); rewrite ?fmap_cons, IH; done.
Qed.

(** C8. deleteOutdated, the cache cleanup of the activate handler, is
    idempotent: from any set of snapshots, running it twice in a row
    leaves the same snapshots as running it once, namely exactly those
    whose name equals the current cache name. *)
Theorem activate_handler_idempotent (w : World) :
  let w1 := snd (activate_handler w) in
  let w2 := snd (activate_handler w1) in
  fst (activate_handler w) = Value tt
  ∧ fst (activate_handler w1) = Value tt
  ∧ w2 = w1
  ∧ caches w1 = filter (λ e, e.1 = cache_name) (caches w)
  ∧ fst <$> caches w1 = filter (λ name, name = cache_name) (fst <$> caches w).
Proof.
  cbv zeta. rewrite !activate_handler_run. cbn [fst snd].
  assert (Hc : ∀ cs w0, caches (set_caches cs w0) = cs) by (by intros ? []).
  split; [done|]. split; [done|]. split; [|split].
  - rewrite set_caches_twice, Hc. f_equal.
    apply filter_all. intros e He. by apply list_elem_of_filter in He as [? _].
  - apply Hc.
  - rewrite Hc. apply fmap_fst_filter_name.
Qed.

(** C10. The two cache-name tests disagree: get_cache_storage_names
    reports a cache as latest when its name contains the current cache
    name, the activate handler keeps only the cache whose name equals
    it. A first cache named after the current cache name plus a
    non-empty suffix is reported as latestCacheName, is not among the
    outdated names, and is deleted on activation. *)
Theorem latest_cache_deleted_on_activate
    (w : World) (suffix : string) (c : Cache) (rest : CacheStorage) :
  suffix ≠ EmptyString →
  caches w = (String.append cache_name suffix, c) :: rest →
  let name := String.append cache_name suffix in
  (∃ outdated, get_cache_storage_names w = (Value (Some name, outdated), w)
               ∧ name ∉ outdated)
  ∧ name ∈ fst <$> caches w
  ∧ name ∉ fst <$> caches (snd (activate_handler w)).
Proof.
  intros Hs Hw name.
  assert (Hinc : includes name cache_name = true) by apply includes_prefix.
  split; [|split].
  - unfold get_cache_storage_names, bind, caches_keys, ret.
    rewrite Hw, fmap_cons. cbn [fst List.find List.filter].
    fold name. rewrite Hinc. cbn [negb].
    eexists. split; [reflexivity|].
    intros Hin. apply list_elem_of_In, filter_In in Hin as [_ Hf].
    rewrite Hinc in Hf. discriminate.
  - rewrite Hw, fmap_cons. left.
  - rewrite activate_handler_run.
    assert (Hc : ∀ cs w0, caches (set_caches cs w0) = cs) by (by intros ? []).
    cbn [snd]. rewrite Hc, fmap_fst_filter_name.
    intros Hin. apply list_elem_of_filter in Hin as [Heq _].
    by apply (append_nonempty_ne cache_name suffix).
Qed.

Lemma latest_cache_deleted_on_activate_witness :
  let w := world_with_caches [("web-app-cache-10", [])] in
  get_cache_storage_names w = (Value (Some "web-app-cache-10", []), w)
  ∧ "web-app-cache-10" ∉ fst <$> caches (snd (activate_handler w)).
Proof.
  pose proof (latest_cache_deleted_on_activate
                (world_with_caches [("web-app-cache-10", [])]) "0" [] []
                ltac:(discriminate) eq_refl) as (_ & _ & Hdel).
  split; [reflexivity | exact Hdel].
Defined.

(* --------------------------------------------------------------------- *)
(* 9. Control handoff                                                    *)
(* --------------------------------------------------------------------- *)

Lemma controlled_count_le w : (controlled_count w ≤ length (clients w))%nat.
Proof.
  unfold controlled_count. induction (clients w) as [|c l IH]; simpl; [lia|].
  destruct (controlled c); simpl; lia.
Qed.

Lemma message_skip_waiting_run w :
  message_handler "SKIP_WAITING" w
  = if Nat.ltb (length (clients w)) 2
    then (Value tt,
          set_clients ((fun c => mkClient (client_id c) true) <$> clients w)
                      (set_skipped_waiting true w))
    else (Value tt, w).
Proof.
  unfold message_handler. cbn [String.eqb Ascii.eqb Bool.eqb].
  unfold bind, clients_matchAll.
  destruct (Nat.ltb (length (clients w)) 2); reflexivity.
Qed.

(** C5 (as amended). On a SKIP_WAITING message the worker skips waiting
    and claims every client if and only if fewer than two window clients
    of the origin exist, counted with includeUncontrolled, that is
    whether this worker controls them or not; with two or more clients
    (in particular two or more controlled ones) nothing is changed. *)
Theorem skip_waiting_iff_fewer_than_two_clients (w : World) :
  skipped_waiting w = false →
  let w' := snd (message_handler "SKIP_WAITING" w) in
  fst (message_handler "SKIP_WAITING" w) = Value tt
  ∧ (skipped_waiting w' = true ↔ (length (clients w) < 2)%nat)
  ∧ ((length (clients w) < 2)%nat →
       Forall (λ c, controlled c = true) (clients w')
       ∧ client_id <$> clients w' = client_id <$> clients w)
  ∧ ((2 ≤ length (clients w))%nat → w' = w)
  ∧ ((2 ≤ controlled_count w)%nat → skipped_waiting w' = false).
Proof.
  intros Hsk. cbv zeta. rewrite message_skip_waiting_run.
  pose proof (controlled_count_le w) as Hle.
  destruct (Nat.ltb_spec (length (clients w)) 2) as [Hlt|Hge]; cbn [fst snd].
  - split; [done|]. split; [by destruct w|]. split; [|split; intros; lia].
    intros _. destruct w as [? ? ? ? ? ? cl ? ? ?]; cbn. split.
    + apply Forall_fmap, Forall_true. done.
    + rewrite <- list_fmap_compose. done.
  - split; [done|]. split; [|split; [intros; lia|split; done]].
    rewrite Hsk. split; [discriminate|lia].
Qed.

Lemma skip_waiting_iff_fewer_than_two_clients_witness :
  let w := world_with_clients [mkClient "tab-1" false] in
  skipped_waiting (snd (message_handler "SKIP_WAITING" w)) = true.
Proof.
  pose proof (skip_waiting_iff_fewer_than_two_clients
                (world_with_clients [mkClient "tab-1" false]) eq_refl)
    as (_ & Hiff & _).
  apply Hiff. cbn. lia.
Defined.

(** C5, counterexample. With one controlled and one uncontrolled window
    client, at most one controlled client exists and yet the worker does
    not skip waiting: matchAll is called with includeUncontrolled and
    returns both. *)
Lemma skip_waiting_counts_uncontrolled_clients :
  let w := world_with_clients [mkClient "tab-1" true; mkClient "tab-2" false] in
  (controlled_count w ≤ 1)%nat
  ∧ snd (message_handler "SKIP_WAITING" w) = w
  ∧ ¬ (skipped_waiting (snd (message_handler "SKIP_WAITING" w)) = true
       ↔ (controlled_count w ≤ 1)%nat).
Proof.
  cbv zeta. split; [cbn; lia|]. split; [reflexivity|].
  intros [_ Hforce]. specialize (Hforce ltac:(cbn; lia)). discriminate.
Qed.

(* --------------------------------------------------------------------- *)
(* 10. The fetch handler and the offline queue                           *)
(* --------------------------------------------------------------------- *)

Lemma store_insert_perm r recs : store_insert r recs ≡ₚ r :: recs.
Proof.
  induction recs as [|x xs IH]; simpl; [done|].
  case_bool_decide; [done|].
  rewrite IH. apply Permutation_swap.
Qed.

Lemma store_request_run request w :
  store_request request w =
  match database w with
  | DbUnavailable => (Value tt, w)
  | DbAbsent => (Hangs, set_database DbNoStore w)
  | DbNoStore => (Hangs, w)
  | DbReady recs =>
      if has_key (now w) recs then (Value tt, w)
      else (Value tt,
            after_sync_register
              (set_database (DbReady (store_insert (queued_record request (now w)) recs)) w))
  end.
Proof.
  unfold store_request, try_catch, bind, date_now, open_store, get_store_factory,
    store_add, sync_in_registration, sync_register, after_sync_register, ret, queued_record.
  destruct w as [? ? sy db ? ? ? ? ? ?]; cbn.
  destruct db as [| | |recs]; try reflexivity.
  cbn. destruct (has_key _ recs); [reflexivity|].
  destruct sy; reflexivity.
Qed.

Lemma fetch_handler_queue request w :
  online w = false → is_request_eligible_for_retry request = true →
  fetch_handler request w =
  match store_request request w with
  | (Value _, w') => (Value (offline_fallback w'), w')
  | (Throws, w') => (Value (offline_fallback w'), w')
  | (Hangs, w') => (Hangs, w')
  end.
Proof.
  intros Hoff Hel. unfold fetch_handler, try_catch, bind, is_offline.
  rewrite Hoff, Hel. cbn [negb andb].
  destruct (store_request request w) as [[[]| |] w']; reflexivity.
Qed.

Lemma fetch_handler_live request w :
  negb (online w) && is_request_eligible_for_retry request = false →
  fetch_handler request w =
  match cached_response request w with
  | Some r => (Value (Some (if redirected r then clean_redirect r else r)), w)
  | None =>
      let w' := set_sent (sent w ++ [request]) w in
      match net w (length (sent w)) request with
      | Fulfilled r => (Value r, w')
      | Rejected => (Value (offline_fallback w), w')
      end
  end.
Proof.
  intros Hbr. unfold fetch_handler, try_catch, bind, is_offline.
  rewrite Hbr. unfold caches_match, cached_response.
  destruct (if String.eqb (method request) "GET" then _ else None) as [r|];
    [reflexivity|].
  unfold fetch. cbv zeta.
  destruct (net w (length (sent w)) request) as [[r|]|]; reflexivity.
Qed.

(** C1 (as amended). For a retry-eligible request intercepted while
    offline the fetch handler never calls fetch and never touches the
    caches. When the request store opens and holds no record under the
    current timestamp, exactly one record, the one describing the
    request, is added and the answer is the cached /offline.html. When
    the store cannot be opened or the timestamp is already a key, the
    fault is swallowed: nothing is added and the answer is still the
    cached /offline.html. *)
Theorem fetch_handler_offline_eligible (w : World) (request : Request) :
  online w = false →
  is_request_eligible_for_retry request = true →
  let w' := snd (fetch_handler request w) in
  sent w' = sent w
  ∧ caches w' = caches w
  ∧ (∀ recs, database w = DbReady recs → has_key (now w) recs = false →
       fst (fetch_handler request w) = Value (offline_fallback w)
       ∧ database w' = DbReady (store_insert (queued_record request (now w)) recs)
       ∧ stored w' ≡ₚ queued_record request (now w) :: recs)
  ∧ (∀ recs, database w = DbReady recs → has_key (now w) recs = true →
       fst (fetch_handler request w) = Value (offline_fallback w)
       ∧ database w' = database w)
  ∧ (database w = DbUnavailable →
       fst (fetch_handler request w) = Value (offline_fallback w)
       ∧ database w' = database w).
Proof.
  intros Hoff Hel. cbv zeta.
  rewrite (fetch_handler_queue _ _ Hoff Hel), store_request_run.
  unfold offline_fallback, stored, after_sync_register.
  destruct w as [on nw sy db cs nt cl se tg sk]; cbn in *.
  assert (Hperm := λ recs, store_insert_perm (queued_record request nw) recs).
  destruct db as [| | |recs]; cbn;
    [| | |destruct (has_key nw recs) eqn:Hk; [|destruct sy]; cbn];
    split_ands; try done;
    try (intros recs' ? ?; simplify_eq; split_ands; done);
    intros recs' ? ?; simplify_eq; congruence.
Qed.

Lemma fetch_handler_offline_eligible_witness :
  let r := fetch_handler submit_post (offline_world (DbReady [])) in
  fst r = Value (Some offline_page)
  ∧ database (snd r) = DbReady [queued_record submit_post 1000]
  ∧ sent (snd r) = [].
Proof.
  pose proof (fetch_handler_offline_eligible
                (offline_world (DbReady [])) submit_post eq_refl eq_refl)
    as (Hsent & _ & Hadd & _).
  destruct (Hadd [] eq_refl eq_refl) as (Hres & Hdb & _).
  split; [exact Hres|]. split; [exact Hdb | exact Hsent].
Defined.

(** C1, counterexample. An eligible POST intercepted offline does not
    always add a record: with the database unavailable, or with a record
    already stored under the current timestamp, the store is left as it
    was although the fallback is served. *)
Lemma offline_request_not_appended :
  let older := queued_record (mkRequest "/vote" "PUT" None [] "cors" "omit" "default") 1000 in
  is_request_eligible_for_retry submit_post = true
  ∧ fetch_handler submit_post (offline_world DbUnavailable)
    = (Value (Some offline_page), offline_world DbUnavailable)
  ∧ fetch_handler submit_post (offline_world (DbReady [older]))
    = (Value (Some offline_page), offline_world (DbReady [older])).
Proof. cbv zeta. repeat split; vm_compute; reflexivity. Qed.

Lemma storage_match_is_Some ign u (cs : CacheStorage) :
  is_Some (storage_match ign u cs)
  ↔ ∃ name c, (name, c) ∈ cs ∧ is_Some (cache_lookup ign u c).
Proof.
  induction cs as [|[n c] cs IH]; simpl.
  - split; [by intros [? ?]|]. intros (? & ? & Hin & _). by apply elem_of_nil in Hin.
  - destruct (cache_lookup ign u c) as [r|] eqn:E.
    + split; [|by eauto]. intros _. exists n, c. rewrite E. split; [left|by eauto].
    + rewrite IH. split.
      * intros (n' & c' & Hin & Hs). exists n', c'. split; [by right|done].
      * intros (n' & c' & Hin & Hs). apply elem_of_cons in Hin as [[= -> ->]|Hin].
        -- rewrite E in Hs. by destruct Hs.
        -- eauto.
Qed.

(** C4 (as amended). For a request that does not take the offline-queue
    branch and has no cached match, when the live fetch throws the
    handler answers with the cache lookup of /offline.html; that answer
    is a document exactly when some snapshot holds /offline.html. *)
Theorem fetch_handler_network_failure (w : World) (request : Request) :
  negb (online w) && is_request_eligible_for_retry request = false →
  fst (caches_match request true w) = Value None →
  net w (length (sent w)) request = Rejected →
  fetch_handler request w
  = (Value (offline_fallback w), set_sent (sent w ++ [request]) w)
  ∧ (is_Some (offline_fallback w)
     ↔ ∃ name c, (name, c) ∈ caches w ∧ is_Some (cache_lookup false "/offline.html" c)).
Proof.
  intros Hbr Hmiss Hnet. split; [|apply storage_match_is_Some].
  rewrite (fetch_handler_live _ _ Hbr).
  unfold caches_match in Hmiss. cbn [fst] in Hmiss.
  unfold cached_response. injection Hmiss as ->.
  cbv zeta. by rewrite Hnet.
Qed.

Lemma fetch_handler_network_failure_witness :
  let w := online_world [(cache_name, [("/offline.html", offline_page)])]
                        (fun _ _ => Rejected) in
  fetch_handler quiz_get w
  = (Value (Some offline_page), set_sent [quiz_get] w).
Proof.
  exact (proj1 (fetch_handler_network_failure
                  (online_world [(cache_name, [("/offline.html", offline_page)])]
                                (fun _ _ => Rejected))
                  quiz_get eq_refl eq_refl eq_refl)).
Defined.

(** C4, counterexample. The handler can answer an intercepted request
    with nothing: when the live fetch throws and no snapshot holds
    /offline.html (an installation whose population failed leaves such a
    state), and when the fetch promise fulfils without a response, in
    which case the fallback is not consulted although it is cached. *)
Lemma fetch_handler_empty_response :
  let w1 := online_world [(cache_name, [])] (fun _ _ => Rejected) in
  let w2 := online_world [(cache_name, [("/offline.html", offline_page)])]
                         (fun _ _ => Fulfilled None) in
  fst (caches_match quiz_get true w1) = Value None
  ∧ fetch_handler quiz_get w1 = (Value None, set_sent [quiz_get] w1)
  ∧ fst (caches_match quiz_get true w2) = Value None
  ∧ offline_fallback w2 = Some offline_page
  ∧ fetch_handler quiz_get w2 = (Value None, set_sent [quiz_get] w2).
Proof. cbv zeta. repeat split. Qed.

(* --------------------------------------------------------------------- *)
(* 11. The retry engine                                                  *)
(* --------------------------------------------------------------------- *)

Lemma set_database_twice a b w : set_database a (set_database b w) = set_database a w.
Proof. by destruct w. Qed.

Lemma fetch_outcomes_length nt n reqs : length (fetch_outcomes nt n reqs) = length reqs.
Proof. revert n. induction reqs as [|q qs IH]; intros n; simpl; [done|]. by rewrite IH. Qed.

Lemma fetch_outcomes_lookup nt n reqs i q :
  reqs !! i = Some q → fetch_outcomes nt n reqs !! i = Some (settle (nt (n + i)%nat q)).
Proof.
  revert n i. induction reqs as [|q0 qs IH]; intros n [|i] Hq; simplify_eq/=.
  - by rewrite Nat.add_0_r.
  - rewrite (IH (S n) i Hq). do 3 f_equal. lia.
Qed.

Lemma all_settled_fetch reqs w :
  all_settled (fetch <$> reqs) w
  = (Value (fetch_outcomes (net w) (length (sent w)) reqs),
     set_sent (sent w ++ reqs) w).
Proof.
  revert w. induction reqs as [|q qs IH]; intros w.
  - cbn. unfold ret. rewrite app_nil_r. by destruct w.
  - rewrite fmap_cons. cbn [all_settled fetch_outcomes]. unfold fetch. cbv zeta.
    destruct (net w (length (sent w)) q) as [v|]; unfold bind; rewrite IH; unfold ret;
      destruct w as [? ? ? ? ? ? ? se ? ?]; cbn;
      rewrite length_app, Nat.add_1_r, <- app_assoc; reflexivity.
Qed.

Lemma fulfilled_keys_subset {A} (outs : list (Settled A)) recs k :
  k ∈ fulfilled_keys outs recs → k ∈ timestamp <$> recs.
Proof.
  revert recs. induction outs as [|o os IH]; intros [|r rs]; simpl;
    try (intros Hk; by apply elem_of_nil in Hk).
  destruct (is_fulfilled o).
  - intros [->|Hk]%elem_of_cons; [left|right; by apply IH].
  - intros Hk. right. by apply IH.
Qed.

(* Deleting by key the records whose replay fulfilled leaves exactly the
   records whose replay was rejected, provided keys are unique. *)
Lemma filter_fulfilled_keys {A} (outs : list (Settled A)) recs (ks : list Z) :
  length outs = length recs →
  store_wf recs →
  (∀ q, q ∈ recs → timestamp q ∉ ks) →
  filter (λ q, timestamp q ∉ ks ++ fulfilled_keys outs recs) recs
  = failed_records outs recs.
Proof.
  unfold store_wf.
  revert recs ks. induction outs as [|o os IH]; intros [|r rs] ks Hlen Hwf Hks;
    simplify_eq/=; [done|].
  apply NoDup_cons in Hwf as [Hr Hwf].
  destruct (is_fulfilled o).
  - rewrite filter_cons_False by (intros Hn; apply Hn; set_solver).
    rewrite <- (IH rs (ks ++ [timestamp r])); [|done|done|].
    + apply list_filter_iff. intros q. rewrite <- app_assoc. done.
    + intros q Hq. rewrite not_elem_of_app. split; [apply Hks; by right|].
      intros Heq%list_elem_of_singleton. apply Hr. rewrite <- Heq.
      apply list_elem_of_fmap. eauto.
  - rewrite filter_cons_True.
    + f_equal. apply IH; [done|done|]. intros q Hq. apply Hks. by right.
    + rewrite not_elem_of_app. split; [apply Hks; left|].
      intros Hk. by apply Hr, (fulfilled_keys_subset os).
Qed.

(* The forEach of retry_requests, started at index i on the records
   that are left to visit. *)
Lemma for_each_delete_fulfilled {A} (reqs : list QueuedRequest)
    (outs : list (Settled A)) (rs : list QueuedRequest) i cur w :
  database w = DbReady cur →
  length outs = length rs →
  (∀ j r, rs !! j = Some r → reqs !! (i + j)%nat = Some r) →
  for_each_indexed (fun response index =>
      match reqs !! index with
      | None => throw
      | Some r =>
          if is_fulfilled response then detached (store_delete (timestamp r))
          else ret tt
      end) outs i w
  = (Value tt,
     set_database (DbReady (filter (λ q, timestamp q ∉ fulfilled_keys outs rs) cur)) w).
Proof.
  revert rs i cur w. induction outs as [|o os IH]; intros [|r rs] i cur w Hdb Hlen Hrs;
    simplify_eq/=.
  - unfold ret. rewrite filter_all by (intros; apply not_elem_of_nil).
    by rewrite <- Hdb, set_database_same.
  - unfold bind at 1.
    replace (reqs !! i) with (Some r)
      by (symmetry; rewrite <- (Nat.add_0_r i); by apply Hrs).
    destruct (is_fulfilled o).
    + unfold detached, store_delete. rewrite Hdb. cbn [snd].
      rewrite (IH rs (S i) (filter (λ q, timestamp q ≠ timestamp r) cur));
        [| by destruct w | done |].
      * rewrite set_database_twice. do 3 f_equal. rewrite list_filter_filter.
        apply list_filter_iff. intros q. rewrite not_elem_of_cons. tauto.
      * intros j r' Hj. rewrite <- (Hrs (S j) r' Hj). f_equal. lia.
    + unfold ret. apply (IH rs (S i) cur w Hdb); [done|].
      intros j r' Hj. rewrite <- (Hrs (S j) r' Hj). f_equal. lia.
Qed.

Lemma failed_records_sublist {A} (outs : list (Settled A)) recs :
  failed_records outs recs `sublist_of` recs.
Proof.
  revert recs. induction outs as [|o os IH]; intros [|r rs]; simpl;
    try apply sublist_nil_l.
  destruct (is_fulfilled o); [apply sublist_cons | apply sublist_skip]; apply IH.
Qed.

Lemma failed_records_elem {A} (outs : list (Settled A)) (recs : list QueuedRequest) i r :
  length outs = length recs →
  NoDup recs →
  recs !! i = Some r →
  r ∈ failed_records outs recs ↔ outs !! i = Some rejected.
Proof.
  revert recs i. induction outs as [|o os IH]; intros [|r0 rs] i Hlen Hnd Hi;
    try discriminate.
  injection Hlen as Hlen. cbn [failed_records].
  apply NoDup_cons in Hnd as [Hr0 Hnd].
  destruct i as [|i]; simplify_eq/=.
  - destruct o; simpl.
    + split; [|done]. intros Hin. destruct Hr0.
      eapply elem_of_sublist; [exact Hin | apply failed_records_sublist].
    + split; [done|]. intros _. left.
  - assert (r ≠ r0) by (intros ->; apply Hr0; by eapply list_elem_of_lookup_2).
    destruct (is_fulfilled o).
    + by apply IH.
    + rewrite elem_of_cons. rewrite (IH rs i) by done. simpl. tauto.
Qed.

Lemma get_requests_run w :
  get_requests w =
  match database w with
  | DbUnavailable => (Value (inr tt), w)
  | DbAbsent => (Hangs, set_database DbNoStore w)
  | DbNoStore => (Hangs, w)
  | DbReady recs => (Value (inl recs), w)
  end.
Proof.
  unfold get_requests, try_catch, bind, open_store, get_store_factory, store_getAll, ret.
  destruct w as [? ? ? db ? ? ? ? ? ?]; cbn. destruct db; reflexivity.
Qed.

Lemma all_settled_replays (recs : list QueuedRequest) w :
  all_settled ((λ r, fetch_init (q_url r) (replay_init r)) <$> recs) w
  = (Value (replay_outcomes (net w) (length (sent w)) recs),
     set_sent (sent w ++ omap replay_request recs) w).
Proof.
  revert w. induction recs as [|r rs IH]; intros w.
  - cbn. unfold ret. rewrite app_nil_r. by destruct w.
  - rewrite fmap_cons. cbn [all_settled replay_outcomes omap list_omap].
    unfold fetch_init at 1. fold (replay_request r).
    destruct (replay_request r) as [q|].
    + unfold fetch. cbv zeta.
      destruct (net w (length (sent w)) q) as [v|]; unfold bind; rewrite IH; unfold ret;
        destruct w as [? ? ? ? ? ? ? se ? ?]; cbn;
        rewrite length_app, Nat.add_1_r, <- app_assoc; reflexivity.
    + unfold throw at 1. unfold bind. rewrite IH. reflexivity.
Qed.

Lemma replay_outcomes_length nt n recs :
  length (replay_outcomes nt n recs) = length recs.
Proof.
  revert n. induction recs as [|r rs IH]; intros n; cbn; [done|].
  destruct (replay_request r); cbn; by rewrite IH.
Qed.

Lemma replay_outcomes_lookup_from nt n (recs : list QueuedRequest) i r :
  recs !! i = Some r →
  replay_outcomes nt n recs !! i
  = Some match replay_request r with
         | Some q => settle (nt (n + length (omap replay_request (take i recs)))%nat q)
         | None => rejected
         end.
Proof.
  revert n i. induction recs as [|r0 rs IH]; intros n i Hi; [done|].
  destruct i as [|i].
  - injection Hi as ->. cbn [replay_outcomes take omap list_omap length].
    rewrite Nat.add_0_r. by destruct (replay_request r).
  - cbn [lookup] in Hi. cbn [replay_outcomes take omap list_omap].
    destruct (replay_request r0) as [q0|].
    + change ((?x :: ?l) !! S i) with (l !! i).
      rewrite (IH (S n) i Hi). destruct (replay_request r); [|done].
      cbn [length]. do 3 f_equal. lia.
    + change ((?x :: ?l) !! S i) with (l !! i). by rewrite (IH n i Hi).
Qed.

Lemma replay_outcomes_lookup w (recs : list QueuedRequest) i r :
  recs !! i = Some r →
  replay_outcomes (net w) (length (sent w)) recs !! i = Some (replay_settles w recs i r).
Proof. apply replay_outcomes_lookup_from. Qed.

Lemma retry_requests_run w :
  retry_requests w =
  match database w with
  | DbUnavailable => (Throws, w)
  | DbAbsent => (Hangs, set_database DbNoStore w)
  | DbNoStore => (Hangs, w)
  | DbReady recs =>
      let outs := replay_outcomes (net w) (length (sent w)) recs in
      (Value tt,
       set_database (DbReady (filter (λ q, timestamp q ∉ fulfilled_keys outs recs) recs))
                    (set_sent (sent w ++ omap replay_request recs) w))
  end.
Proof.
  unfold retry_requests. unfold bind at 1. rewrite get_requests_run.
  destruct (database w) as [| | |recs] eqn:Hdb; try reflexivity.
  unfold bind. rewrite all_settled_replays.
  unfold open_store, get_store_factory.
  replace (database (set_sent (sent w ++ omap replay_request recs) w)) with (DbReady recs)
    by (by destruct w; simplify_eq/=).
  cbv zeta.
  apply (for_each_delete_fulfilled recs _ recs 0).
  - by destruct w; simplify_eq/=.
  - by rewrite replay_outcomes_length.
  - done.
Qed.

(* Object.fromEntries over entries with distinct names. *)
Lemma serialize_headers_fold (h : Headers) (o : gmap string string) :
  NoDup (h.*1) →
  fold_left (fun o e => <[fst e := snd e]> o) h o = list_to_map h ∪ o.
Proof.
  revert o. induction h as [|[k v] h IH]; intros o Hnd.
  - cbn. by rewrite (left_id_L ∅ (∪)).
  - rewrite fmap_cons in Hnd. apply NoDup_cons in Hnd as [Hk Hnd].
    cbn [fold_left fst snd]. rewrite IH by done.
    rewrite list_to_map_cons, <- insert_union_l. symmetry.
    apply insert_union_r. by apply not_elem_of_list_to_map_1.
Qed.

(* The headers of a replayed request serialize back to the stored object. *)
Lemma serialize_new_Headers (o : gmap string string) :
  serialize_headers (new_Headers o) = o.
Proof.
  unfold serialize_headers, new_Headers.
  rewrite serialize_headers_fold by apply NoDup_fst_map_to_list.
  by rewrite list_to_map_to_list, (right_id_L ∅ (∪)).
Qed.

(* What a drain leaves of a store with unique keys. *)
Lemma retry_requests_ready w recs :
  database w = DbReady recs →
  store_wf recs →
  retry_requests w
  = (Value tt,
     set_database
       (DbReady (failed_records (replay_outcomes (net w) (length (sent w)) recs) recs))
       (set_sent (sent w ++ omap replay_request recs) w)).
Proof.
  intros Hdb Hwf. rewrite retry_requests_run, Hdb. cbv zeta. do 3 f_equal.
  rewrite <- (filter_fulfilled_keys _ recs []); [done| |done|].
  - by rewrite replay_outcomes_length.
  - intros q _. apply not_elem_of_nil.
Qed.

Lemma retry_requests_ready_stored w recs :
  database w = DbReady recs →
  store_wf recs →
  stored (snd (retry_requests w))
  = failed_records (replay_outcomes (net w) (length (sent w)) recs) recs.
Proof.
  intros Hdb Hwf. rewrite (retry_requests_ready w recs Hdb Hwf).
  cbn [snd]. unfold stored. by destruct w.
Qed.

(* After a drain, a record is still stored exactly when the promise of
   its replay was rejected. *)
Lemma retry_requests_keeps w (recs : list QueuedRequest) i r :
  database w = DbReady recs →
  store_wf recs →
  recs !! i = Some r →
  r ∈ stored (snd (retry_requests w)) ↔ replay_settles w recs i r = rejected.
Proof.
  intros Hdb Hwf Hi. rewrite (retry_requests_ready_stored w recs Hdb Hwf).
  rewrite (failed_records_elem _ recs i r); [| |by eapply NoDup_fmap_1|done].
  - rewrite (replay_outcomes_lookup w recs i r Hi). split; congruence.
  - by rewrite replay_outcomes_length.
Qed.

(* What the Request constructor makes of the init of a replay. *)
Lemma replay_request_fields r q :
  replay_request r = Some q →
  url q = q_url r ∧ method q = normalize_method (q_method r)
  ∧ body q = q_body r ∧ mode q = q_mode r ∧ credentials q = q_credentials r
  ∧ serialize_headers (headers q) = q_headers r
  ∧ q_mode r ≠ "navigate".
Proof.
  unfold replay_request, new_Request, replay_init. cbn.
  destruct (String.eqb_spec (q_mode r) "navigate") as [|Hnav]; [done|].
  repeat (match goal with |- context [if ?b then None else _] => destruct b end;
          [done|]).
  intros [= <-]. cbn. split_ands; try done. apply serialize_new_Headers.
Qed.

Lemma replay_request_navigate r :
  q_mode r = "navigate" → replay_request r = None.
Proof. intros Hm. unfold replay_request, new_Request, replay_init. cbn. by rewrite Hm. Qed.

(** C2 (code bug). A record captured from a form submission carries the
    mode navigate. Its replay is a call of fetch with that mode in the
    init, which rejects in the Request constructor: once connectivity is
    back and the origin accepts everything, a drain sends no request for
    the record and leaves it in the store, and so does every later
    drain. *)
Theorem navigate_record_never_replayed :
  let w1 := snd (fetch_handler form_post (offline_world (DbReady []))) in
  let w2 := back_online w1 in
  is_request_eligible_for_retry form_post = true
  ∧ stored w1 = [queued_record form_post 1000]
  ∧ replay_request (queued_record form_post 1000) = None
  ∧ retry_requests w2 = (Value tt, w2)
  ∧ sent (snd (retry_requests w2)) = []
  ∧ stored (snd (retry_requests w2)) = [queued_record form_post 1000].
Proof. cbv zeta. split_ands; by vm_compute. Qed.

Lemma two_records_wf : store_wf [vote_record 1000 "/vote/1"; vote_record 1001 "/vote/2"].
Proof.
  unfold store_wf. cbn. apply NoDup_cons. split; [|apply NoDup_singleton].
  intros Hin%list_elem_of_singleton. discriminate.
Qed.

Lemma unique_key_eq (recs : list QueuedRequest) q r :
  store_wf recs → q ∈ recs → r ∈ recs → timestamp q = timestamp r → q = r.
Proof.
  unfold store_wf. induction recs as [|x xs IH]; intros Hwf Hq Hr Hk.
  - by apply elem_of_nil in Hq.
  - rewrite fmap_cons in Hwf. apply NoDup_cons in Hwf as [Hx Hwf].
    apply elem_of_cons in Hq as [->|Hq]; apply elem_of_cons in Hr as [->|Hr];
      try done; try by apply IH.
    + destruct Hx. rewrite Hk. apply list_elem_of_fmap. eauto.
    + destruct Hx. rewrite <- Hk. apply list_elem_of_fmap. eauto.
Qed.

Lemma retry_requests_sent_ready w recs :
  database w = DbReady recs →
  sent (snd (retry_requests w)) = sent w ++ omap replay_request recs.
Proof.
  intros Hdb. rewrite retry_requests_run, Hdb. by destruct w.
Qed.

Lemma retry_requests_sent w :
  sent (snd (retry_requests w)) = sent w ++ omap replay_request (stored w).
Proof.
  rewrite retry_requests_run. unfold stored.
  destruct w as [? ? ? db ? ? ? se ? ?]; cbn.
  destruct db; cbn; by rewrite ?app_nil_r.
Qed.

(** C9. A queued record is deleted as soon as its replay fetch fulfils,
    whatever response came back: no test is made on the status, so a
    replay answered with a 4xx or 5xx response removes the record; no
    record with its key is left and the next drain does not replay it. *)
Theorem replay_fulfilled_deletes_whatever_status
    (w : World) (recs : list QueuedRequest) (i : nat) (r : QueuedRequest)
    (resp : Response) :
  database w = DbReady recs →
  store_wf recs →
  recs !! i = Some r →
  replay_settles w recs i r = fulfilled (Some resp) →
  let w' := snd (retry_requests w) in
  fst (retry_requests w) = Value tt
  ∧ (r ∉ stored w')
  ∧ (∀ q, q ∈ stored w' → timestamp q ≠ timestamp r)
  ∧ sent (snd (retry_requests w')) = sent w' ++ omap replay_request (stored w').
Proof.
  intros Hdb Hwf Hi Hnet. cbv zeta.
  assert (Hgone : r ∉ stored (snd (retry_requests w))).
  { rewrite (retry_requests_keeps w recs i r Hdb Hwf Hi), Hnet. discriminate. }
  split; [by rewrite (retry_requests_ready w recs Hdb Hwf)|].
  split; [done|]. split; [|apply retry_requests_sent].
  intros q Hq Hk. apply Hgone.
  assert (Hsub : stored (snd (retry_requests w)) `sublist_of` recs).
  { rewrite (retry_requests_ready_stored w recs Hdb Hwf).
    apply failed_records_sublist. }
  assert (q = r) as <-; [|done].
  apply (unique_key_eq recs); [done| |by eapply list_elem_of_lookup_2|done].
  by eapply elem_of_sublist.
Qed.

Lemma replay_fulfilled_deletes_whatever_status_witness :
  let w := drain_world [vote_record 1000 "/vote/1"] server_error in
  (vote_record 1000 "/vote/1" ∉ stored (snd (retry_requests w)))
  ∧ database (snd (retry_requests w)) = DbReady [].
Proof.
  pose proof (replay_fulfilled_deletes_whatever_status
                (drain_world [vote_record 1000 "/vote/1"] server_error)
                [vote_record 1000 "/vote/1"] 0 (vote_record 1000 "/vote/1")
                (mkResponse 500 "Internal Server Error" [] EmptyString false)
                eq_refl (NoDup_singleton _) eq_refl eq_refl) as (_ & Hgone & _).
  split; [exact Hgone | reflexivity].
Defined.

(* --------------------------------------------------------------------- *)
(* 12. Migration of the current snapshot into the outdated ones          *)
(* --------------------------------------------------------------------- *)

Lemma cache_lookup_cons u k v (c : Cache) :
  cache_lookup false u ((k, v) :: c)
  = if decide (k = u) then Some v else cache_lookup false u c.
Proof.
  unfold cache_lookup. cbn. destruct (String.eqb_spec k u); by case_decide.
Qed.

Lemma cache_lookup_insert u u' r (c : Cache) :
  cache_lookup false u (cache_insert u' r c)
  = if decide (u' = u) then Some r else cache_lookup false u c.
Proof.
  unfold cache_insert. induction c as [|[k v] c IH].
  - cbn [filter list_filter app]. rewrite cache_lookup_cons. by case_decide.
  - rewrite filter_cons. cbn [fst]. rewrite cache_lookup_cons.
    destruct (decide (k ≠ u')) as [Hne|Heq%dec_stable].
    + rewrite <- app_comm_cons, cache_lookup_cons, IH.
      repeat case_decide; congruence.
    + rewrite IH. repeat case_decide; congruence.
Qed.

Lemma cache_lookup_keys u (c : Cache) :
  is_Some (cache_lookup false u c) ↔ u ∈ fst <$> c.
Proof.
  induction c as [|[k v] c IH].
  - split; [by intros [? ?]|]. intros H. by apply elem_of_nil in H.
  - rewrite cache_lookup_cons, fmap_cons, elem_of_cons. cbn [fst].
    case_decide; [naive_solver|]. rewrite IH. naive_solver.
Qed.

Lemma storage_lookup_cons n k (c : Cache) (cs : CacheStorage) :
  storage_lookup n ((k, c) :: cs)
  = if decide (k = n) then Some c else storage_lookup n cs.
Proof.
  unfold storage_lookup. cbn. destruct (String.eqb_spec k n); by case_decide.
Qed.

Lemma storage_lookup_names n (cs : CacheStorage) :
  is_Some (storage_lookup n cs) ↔ n ∈ fst <$> cs.
Proof.
  induction cs as [|[k c] cs IH].
  - split; [by intros [? ?]|]. intros H. by apply elem_of_nil in H.
  - rewrite storage_lookup_cons, fmap_cons, elem_of_cons. cbn [fst].
    case_decide; [naive_solver|]. rewrite IH. naive_solver.
Qed.

Lemma storage_lookup_alter f n o (cs : CacheStorage) :
  storage_lookup n (storage_alter f o cs)
  = if decide (n = o) then f <$> storage_lookup n cs else storage_lookup n cs.
Proof.
  unfold storage_alter. induction cs as [|[k c] cs IH].
  - by case_decide.
  - rewrite fmap_cons. cbn [fst snd].
    destruct (String.eqb_spec k o) as [->|Hne];
      rewrite !storage_lookup_cons, IH; repeat case_decide; simplify_eq; done.
Qed.

Lemma storage_alter_names f o (cs : CacheStorage) :
  fst <$> storage_alter f o cs = fst <$> cs.
Proof.
  unfold storage_alter. rewrite <- list_fmap_compose. apply list_fmap_ext.
  intros i [k c] _. cbn. by destruct (String.eqb k o).
Qed.

Lemma storage_alter_ext f g o (cs : CacheStorage) :
  (∀ c, f c = g c) → storage_alter f o cs = storage_alter g o cs.
Proof.
  intros Hfg. unfold storage_alter. apply list_fmap_ext.
  intros i [k c] _. cbn. by rewrite Hfg.
Qed.

Lemma storage_alter_twice f g o (cs : CacheStorage) :
  storage_alter g o (storage_alter f o cs) = storage_alter (g ∘ f) o cs.
Proof.
  unfold storage_alter. rewrite <- list_fmap_compose. apply list_fmap_ext.
  intros i [k c] _. cbn. destruct (String.eqb k o) eqn:E; cbn; by rewrite E.
Qed.

Lemma copy_entries_lookup (L : Cache) (entries : list string) (c : Cache) u :
  (∀ e, e ∈ entries → is_Some (cache_lookup false e L)) →
  cache_lookup false u (copy_entries L entries c)
  = if decide (u ∈ entries) then cache_lookup false u L else cache_lookup false u c.
Proof.
  revert c. induction entries as [|e es IH]; intros c Hes.
  - cbn. case_decide as H; [by apply elem_of_nil in H|done].
  - destruct (Hes e ltac:(left)) as [r Hr].
    cbn [copy_entries fold_left]. rewrite Hr. fold (copy_entries L es (cache_insert e r c)).
    rewrite IH by (intros; apply Hes; by right).
    rewrite cache_lookup_insert.
    repeat case_decide; set_solver.
Qed.

Lemma storage_alter_id f o (cs : CacheStorage) :
  (∀ c, f c = c) → storage_alter f o cs = cs.
Proof.
  intros Hf. unfold storage_alter. rewrite <- (list_fmap_id cs) at 2.
  apply list_fmap_ext. intros i [k c] _. cbn. rewrite Hf. by destruct (String.eqb k o).
Qed.

Lemma caches_set_caches cs w : caches (set_caches cs w) = cs.
Proof. by destruct w. Qed.

Lemma inner_loop_run latest o (L : Cache) (es : list string) w :
  storage_lookup latest (caches w) = Some L →
  o ≠ latest →
  (∀ e, e ∈ es → is_Some (cache_lookup false e L)) →
  for_of (fun entry =>
      latest_cache_response <- cache_match latest entry ;;
      match latest_cache_response with
      | Some r => cache_put o entry r
      | None => throw
      end) es w
  = (Value tt, set_caches (storage_alter (copy_entries L es) o (caches w)) w).
Proof.
  revert w. induction es as [|e es IH]; intros w HL Hne Hes.
  - cbn. unfold ret. rewrite storage_alter_id by done. by rewrite set_caches_same.
  - destruct (Hes e ltac:(left)) as [r Hr].
    cbn [for_of]. unfold bind at 1. unfold bind at 1. unfold cache_match at 1.
    rewrite HL. cbn [mbind option_bind]. rewrite Hr. unfold cache_put at 1.
    rewrite IH.
    + rewrite caches_set_caches, set_caches_twice, storage_alter_twice.
      do 2 f_equal. apply storage_alter_ext. intros c.
      cbn [copy_entries fold_left compose]. by rewrite Hr.
    + rewrite caches_set_caches, storage_lookup_alter. by case_decide.
    + done.
    + intros e' He'. apply Hes. by right.
Qed.

Lemma outer_loop_run latest (L : Cache) (es os : list string) w :
  storage_lookup latest (caches w) = Some L →
  (∀ e, e ∈ es → is_Some (cache_lookup false e L)) →
  (∀ o, o ∈ os → o ≠ latest ∧ o ∈ fst <$> caches w) →
  for_of (fun outdated_cache_name =>
      outdated_cache <- caches_open outdated_cache_name ;;
      for_of (fun entry =>
          latest_cache_response <- cache_match latest entry ;;
          match latest_cache_response with
          | Some r => cache_put outdated_cache entry r
          | None => throw
          end) es) os w
  = (Value tt, set_caches (migrate L es os (caches w)) w).
Proof.
  revert w. induction os as [|o os IH]; intros w HL Hes Hos.
  - cbn. unfold ret. by rewrite set_caches_same.
  - destruct (Hos o ltac:(left)) as [Hne [c Hc]%storage_lookup_names].
    cbn [for_of]. unfold bind at 1. unfold bind at 1. unfold caches_open at 1.
    rewrite Hc. rewrite (inner_loop_run latest o L es w HL Hne Hes).
    rewrite IH.
    + by rewrite caches_set_caches, set_caches_twice.
    + rewrite caches_set_caches, storage_lookup_alter. by case_decide.
    + done.
    + intros o' Ho'. destruct (Hos o' ltac:(by right)) as [? ?].
      by rewrite caches_set_caches, storage_alter_names.
Qed.

Lemma migrate_cons (L : Cache) es o os (cs : CacheStorage) :
  migrate L es (o :: os) cs = migrate L es os (storage_alter (copy_entries L es) o cs).
Proof. reflexivity. Qed.

Lemma migrate_names (L : Cache) es os (cs : CacheStorage) :
  fst <$> migrate L es os cs = fst <$> cs.
Proof.
  revert cs. induction os as [|o os IH]; intros cs; [done|].
  by rewrite migrate_cons, IH, storage_alter_names.
Qed.

Lemma migrate_lookup (L : Cache) es os (cs : CacheStorage) n :
  NoDup os →
  storage_lookup n (migrate L es os cs)
  = if decide (n ∈ os) then copy_entries L es <$> storage_lookup n cs
    else storage_lookup n cs.
Proof.
  revert cs. induction os as [|o os IH]; intros cs Hnd.
  - cbn. case_decide as H; [by apply elem_of_nil in H|done].
  - apply NoDup_cons in Hnd as [Ho Hnd].
    rewrite migrate_cons, IH by done.
    rewrite storage_lookup_alter. repeat case_decide; set_solver.
Qed.

(* The names get_cache_storage_names returns, read off the storage. *)
Lemma get_cache_storage_names_run w :
  get_cache_storage_names w
  = (Value (List.find (fun name => includes name cache_name) (fst <$> caches w),
            List.filter (fun name => negb (includes name cache_name)) (fst <$> caches w)),
     w).
Proof. reflexivity. Qed.

Lemma update_last_cache_run w latest o os (L : Cache) :
  get_cache_storage_names w = (Value (Some latest, o :: os), w) →
  storage_lookup latest (caches w) = Some L →
  update_last_cache w
  = (Value tt, set_caches (migrate L (fst <$> L) (o :: os) (caches w)) w).
Proof.
  intros Hnames HL. unfold update_last_cache. unfold bind at 1. rewrite Hnames.
  rewrite get_cache_storage_names_run in Hnames. injection Hnames as Hfind Hfilter.
  apply find_some in Hfind as [_ Hinc].
  unfold bind at 1. unfold caches_open at 1. rewrite HL.
  unfold bind at 1. unfold cache_keys at 1. rewrite HL. cbn [default].
  apply outer_loop_run; [done| |].
  - intros e He. by apply cache_lookup_keys.
  - intros o' Ho'. rewrite <- Hfilter in Ho'.
    apply list_elem_of_In, filter_In in Ho' as [Hin Hout]. split.
    + intros ->. rewrite Hinc in Hout. discriminate.
    + by apply list_elem_of_In.
Qed.

(* Copying all the entries of L: L's entries win, the others stay. *)
Lemma copy_all_lookup (L c : Cache) u :
  cache_lookup false u (copy_entries L (fst <$> L) c)
  = match cache_lookup false u L with
    | Some r => Some r
    | None => cache_lookup false u c
    end.
Proof.
  rewrite copy_entries_lookup by (intros e He; by apply cache_lookup_keys).
  pose proof (cache_lookup_keys u L) as Hk.
  case_decide as Hin.
  - apply Hk in Hin as [r Hr]. by rewrite Hr.
  - destruct (cache_lookup false u L) as [r|] eqn:E; [|done].
    destruct Hin. apply Hk. eauto.
Qed.

Lemma update_last_cache_noop w latest outdated :
  get_cache_storage_names w = (Value (latest, outdated), w) →
  latest = None ∨ outdated = [] →
  update_last_cache w = (Value tt, w).
Proof.
  intros Hnames Hno. unfold update_last_cache. unfold bind at 1. rewrite Hnames.
  destruct latest as [l|]; [|done].
  destruct Hno as [?| ->]; done.
Qed.

(** C6. update_last_cache copies every entry of the current snapshot
    into each outdated snapshot: afterwards an outdated snapshot answers
    a url with the current snapshot's response when the current snapshot
    has one (an entry already there is overwritten) and with its own
    response otherwise; the snapshots that are not outdated and the set
    of snapshot names are unchanged. With current {A,B} and outdated
    {A,C} the outdated snapshot ends with the current A and B and its
    own C. Without a current snapshot or without an outdated one nothing
    is changed. *)
Theorem update_last_cache_copies
    (w : World) (latest : option string) (outdated : list string) :
  NoDup (fst <$> caches w) →
  get_cache_storage_names w = (Value (latest, outdated), w) →
  let w' := snd (update_last_cache w) in
  fst (update_last_cache w) = Value tt
  ∧ fst <$> caches w' = fst <$> caches w
  ∧ (latest = None ∨ outdated = [] → w' = w)
  ∧ (∀ l L, latest = Some l → storage_lookup l (caches w) = Some L →
       (∀ old c, old ∈ outdated → storage_lookup old (caches w) = Some c →
          ∃ c', storage_lookup old (caches w') = Some c'
                ∧ ∀ u, cache_lookup false u c'
                       = match cache_lookup false u L with
                         | Some r => Some r
                         | None => cache_lookup false u c
                         end)
       ∧ (∀ n, n ∉ outdated → storage_lookup n (caches w') = storage_lookup n (caches w))
       ∧ (∀ old A B C a2 b2 a1 c1,
            L = [(A, a2); (B, b2)] → old ∈ outdated →
            storage_lookup old (caches w) = Some [(A, a1); (C, c1)] →
            A ≠ B → C ≠ A → C ≠ B →
            ∃ c', storage_lookup old (caches w') = Some c'
                  ∧ cache_lookup false A c' = Some a2
                  ∧ cache_lookup false B c' = Some b2
                  ∧ cache_lookup false C c' = Some c1
                  ∧ ∀ u, u ∉ [A; B; C] → cache_lookup false u c' = None)).
Proof.
  intros Hnd Hnames. cbv zeta.
  assert (Hcases : (latest = None ∨ outdated = [])
                   ∨ ∃ l o os, latest = Some l ∧ outdated = o :: os).
  { destruct latest as [l|]; [|by left; left].
    destruct outdated as [|o os]; [by left; right|right; eauto]. }
  destruct Hcases as [Hno|(l & o & os & -> & ->)].
  - rewrite (update_last_cache_noop w latest outdated Hnames Hno). cbn [fst snd].
    split_ands; try done.
    intros l L -> HL. destruct Hno as [?| ->]; [done|].
    split_ands; [|done|]; intros; exfalso; eapply elem_of_nil; eauto.
  - pose proof Hnames as Hn. rewrite get_cache_storage_names_run in Hn.
    injection Hn as Hfind Hfilter.
    assert (Hnd' : NoDup (o :: os)).
    { rewrite <- Hfilter. by apply NoDup_ListNoDup, List.NoDup_filter, NoDup_ListNoDup. }
    assert (∃ L, storage_lookup l (caches w) = Some L) as [L HL].
    { apply find_some in Hfind as [Hin _].
      by apply storage_lookup_names, list_elem_of_In. }
    rewrite (update_last_cache_run w l o os L Hnames HL). cbn [fst snd].
    rewrite caches_set_caches, migrate_names.
    split; [done|]. split; [done|]. split; [intros [|]; done|].
    intros l' L' [= <-] HL'. rewrite HL in HL'. injection HL' as <-.
    assert (Hcopy : ∀ old c, old ∈ o :: os → storage_lookup old (caches w) = Some c →
              storage_lookup old (migrate L (fst <$> L) (o :: os) (caches w))
              = Some (copy_entries L (fst <$> L) c)).
    { intros old c Hold Hc. rewrite migrate_lookup by done.
      rewrite decide_True by done. by rewrite Hc. }
    split; [|split].
    + intros old c Hold Hc. eexists. split; [by apply Hcopy|].
      intros u. apply copy_all_lookup.
    + intros n Hn. rewrite migrate_lookup by done. by rewrite decide_False.
    + intros old A B C a2 b2 a1 c1 -> Hold Hc HAB HCA HCB.
      eexists. split; [by apply Hcopy|].
      split_ands; try intros u Hu; rewrite copy_all_lookup, !cache_lookup_cons;
        change (cache_lookup false ?x []) with (@None Response);
        repeat case_decide; try done; try congruence;
        exfalso; apply Hu; set_solver.
Qed.

Lemma update_last_cache_copies_witness :
  ∃ c', storage_lookup "web-app-cache-0" (caches (snd (update_last_cache update_world)))
        = Some c'
        ∧ cache_lookup false "/a" c' = Some (old_page "a2")
        ∧ cache_lookup false "/b" c' = Some (old_page "b2")
        ∧ cache_lookup false "/c" c' = Some (old_page "c1")
        ∧ ∀ u, u ∉ ["/a"; "/b"; "/c"] → cache_lookup false u c' = None.
Proof.
  assert (Hnd : NoDup (fst <$> caches update_world)).
  { apply (bool_decide_unpack _). by vm_compute. }
  pose proof (update_last_cache_copies update_world (Some cache_name)
                ["web-app-cache-0"] Hnd eq_refl) as (_ & _ & _ & Hcopy).
  destruct (Hcopy cache_name _ eq_refl eq_refl) as (_ & _ & Hex).
  apply (Hex "web-app-cache-0" "/a" "/b" "/c" _ _ (old_page "a1") (old_page "c1") eq_refl);
    [left|reflexivity|discriminate|discriminate|discriminate].
Defined.

(* --------------------------------------------------------------------- *)
(* 13. Events, and what they do to the request store                     *)
(* --------------------------------------------------------------------- *)

Lemma keeps_database_ret {A} (a : A) : keeps_database (ret a).
Proof. by intros w. Qed.

Lemma keeps_database_throw {A} : keeps_database (@throw A).
Proof. by intros w. Qed.

Lemma keeps_database_bind {A B} (m : Async A) (f : A → Async B) :
  keeps_database m → (∀ a, keeps_database (f a)) → keeps_database (bind m f).
Proof.
  intros Hm Hf w. unfold bind. specialize (Hm w).
  destruct (m w) as [[a| |] w1]; cbn [snd] in *; [|done|done].
  by rewrite Hf.
Qed.

Lemma keeps_database_for_of {A} (f : A → Async unit) l :
  (∀ x, keeps_database (f x)) → keeps_database (for_of f l).
Proof.
  intros Hf. induction l as [|x l IH]; cbn [for_of].
  - apply keeps_database_ret.
  - apply keeps_database_bind; [apply Hf|]. by intros _.
Qed.

Lemma keeps_database_all_settled_fetch reqs :
  keeps_database (all_settled (fetch <$> reqs)).
Proof. intros w. rewrite all_settled_fetch. by destruct w. Qed.

Lemma keeps_database_caches_open n : keeps_database (caches_open n).
Proof. intros w. unfold caches_open. destruct (storage_lookup _ _); by destruct w. Qed.

Lemma keeps_database_cache_put h u r : keeps_database (cache_put h u r).
Proof. intros w. by destruct w. Qed.

Lemma keeps_database_cache_match h u : keeps_database (cache_match h u).
Proof. by intros w. Qed.

Lemma keeps_database_cache_addAll h reqs : keeps_database (cache_addAll h reqs).
Proof.
  unfold cache_addAll. destruct (negb _); [apply keeps_database_throw|].
  apply keeps_database_bind.
  - apply keeps_database_all_settled_fetch.
  - intros outs. destruct (mapM settled_addable outs); [|apply keeps_database_throw].
    destruct (bool_decide _); [|apply keeps_database_throw].
    apply keeps_database_for_of. intros e. apply keeps_database_cache_put.
Qed.

Lemma keeps_database_update_last_cache : keeps_database update_last_cache.
Proof.
  unfold update_last_cache. apply keeps_database_bind; [by intros w|].
  intros [[l|] outdated]; [|apply keeps_database_ret].
  destruct outdated as [|o os]; [apply keeps_database_ret|].
  apply keeps_database_bind; [apply keeps_database_caches_open|]. intros h.
  apply keeps_database_bind; [by intros w|]. intros es.
  apply keeps_database_for_of. intros n.
  apply keeps_database_bind; [apply keeps_database_caches_open|]. intros h'.
  apply keeps_database_for_of. intros e.
  apply keeps_database_bind; [apply keeps_database_cache_match|].
  intros [r|]; [apply keeps_database_cache_put|apply keeps_database_throw].
Qed.

Lemma caches_open_value n w : fst (caches_open n w) = Value n.
Proof. unfold caches_open. by destruct (storage_lookup _ _). Qed.

Lemma cache_addAll_run h reqs w :
  cache_addAll h reqs w
  = if negb (forallb (fun q => String.eqb (method q) "GET") reqs) then (Throws, w)
    else
      let w1 := set_sent (sent w ++ reqs) w in
      match mapM settled_addable (fetch_outcomes (net w) (length (sent w)) reqs) with
      | Some rs =>
          if bool_decide (NoDup (url <$> reqs))
          then for_of (fun e => cache_put h (url (fst e)) (snd e)) (zip reqs rs) w1
          else (Throws, w1)
      | None => (Throws, w1)
      end.
Proof.
  unfold cache_addAll. destruct (negb _); [done|].
  unfold bind. rewrite all_settled_fetch. cbv zeta.
  destruct (mapM settled_addable _); [|done]. by destruct (bool_decide _).
Qed.

(* The precache requests pass the checks that addAll makes before and
   after fetching: all are GET requests, and no url occurs twice. *)
Lemma cache_addAll_precache h w :
  cache_addAll h precache_requests w
  = let w1 := set_sent (sent w ++ precache_requests) w in
    match mapM settled_addable
               (fetch_outcomes (net w) (length (sent w)) precache_requests) with
    | Some rs =>
        for_of (fun e => cache_put h (url (fst e)) (snd e)) (zip precache_requests rs) w1
    | None => (Throws, w1)
    end.
Proof.
  rewrite cache_addAll_run.
  replace (negb (forallb (fun q => String.eqb (method q) "GET") precache_requests))
    with false by (by vm_compute).
  replace (bool_decide (NoDup (url <$> precache_requests))) with true
    by (by vm_compute).
  reflexivity.
Qed.

Lemma for_of_cache_put_value h (l : list (Request * Response)) w :
  fst (for_of (fun e => cache_put h (url (fst e)) (snd e)) l w) = Value tt.
Proof.
  revert w. induction l as [|e l IH]; intros w; [done|].
  cbn [for_of]. unfold bind at 1. unfold cache_put at 1. apply IH.
Qed.

Lemma cache_addAll_settles h reqs w : fst (cache_addAll h reqs w) ≠ Hangs.
Proof.
  rewrite cache_addAll_run. destruct (negb _); [done|]. cbv zeta.
  destruct (mapM settled_addable _); [|done].
  destruct (bool_decide _); [|done]. by rewrite for_of_cache_put_value.
Qed.

Lemma create_indexed_db_settles config w : fst (create_indexed_db config w) ≠ Hangs.
Proof. unfold create_indexed_db. by destruct (database w). Qed.

(* The install promise always fulfils; the population and the schema
   initialization both run, whatever the other does. *)
Lemma install_handler_run w :
  install_handler w
  = (Value tt,
     snd (create_indexed_db idb_config
            (snd (cache_addAll cache_name precache_requests
                    (snd (caches_open cache_name w)))))).
Proof.
  unfold install_handler, try_catch, promise_all2, precache_requests.
  unfold bind at 1. pose proof (caches_open_value cache_name w) as Ho.
  destruct (caches_open cache_name w) as [o w1]. cbn [fst snd] in *. subst o.
  unfold bind.
  pose proof (cache_addAll_settles cache_name (precache_request <$> files_to_cache) w1)
    as Ha.
  destruct (cache_addAll cache_name _ w1) as [ra w2]. cbn [fst snd] in *.
  pose proof (create_indexed_db_settles idb_config w2) as Hb.
  destruct (create_indexed_db idb_config w2) as [rb w3]. cbn [fst snd] in *.
  destruct ra as [[]| |], rb as [[]| |]; done.
Qed.

Lemma create_indexed_db_stored config w q :
  q ∈ stored w → q ∈ stored (snd (create_indexed_db config w)).
Proof.
  unfold create_indexed_db, stored.
  destruct w as [? ? ? db ? ? ? ? ? ?]; cbn. by destruct db.
Qed.

Lemma keeps_database_stored {A} (m : Async A) w :
  keeps_database m → stored (snd (m w)) = stored w.
Proof. intros Hm. unfold stored. by rewrite Hm. Qed.

Lemma store_request_stored request w q :
  q ∈ stored w → q ∈ stored (snd (store_request request w)).
Proof.
  rewrite store_request_run. unfold stored, after_sync_register.
  destruct w as [? nw sy db ? ? ? ? ? ?]; cbn.
  destruct db as [| | |recs]; cbn; try done.
  destruct (has_key nw recs); cbn; [done|].
  intros Hq. destruct sy; cbn; rewrite store_insert_perm; by right.
Qed.

Lemma fetch_handler_stored request w q :
  q ∈ stored w → q ∈ stored (snd (fetch_handler request w)).
Proof.
  intros Hq.
  destruct (negb (online w) && is_request_eligible_for_retry request) eqn:Hbr.
  - apply andb_true_iff in Hbr as [Hoff%negb_true_iff Hel].
    rewrite (fetch_handler_queue _ _ Hoff Hel).
    pose proof (store_request_stored request w q Hq) as Hs.
    by destruct (store_request request w) as [[[]| |] w'].
  - rewrite (fetch_handler_live _ _ Hbr). cbv zeta.
    destruct (cached_response request w); [done|].
    destruct (net w _ request); by destruct w.
Qed.

(* Every event that is not a drain keeps the stored records. *)
Lemma handle_stored e w q :
  is_drain e w = false → q ∈ stored w → q ∈ stored (handle e w).
Proof.
  intros Hnd Hq. destruct e as [| |request|type|tag]; cbn [handle is_drain] in *.
  - rewrite install_handler_run. cbn [snd].
    apply create_indexed_db_stored.
    rewrite (keeps_database_stored _ _ (keeps_database_cache_addAll _ _)).
    by rewrite (keeps_database_stored _ _ (keeps_database_caches_open _)).
  - rewrite activate_handler_run. by destruct w.
  - by apply fetch_handler_stored.
  - destruct (String.eqb_spec type "SKIP_WAITING") as [->|Hne%String.eqb_neq].
    { rewrite message_skip_waiting_run.
      destruct (Nat.ltb _ _); by destruct w. }
    unfold message_handler. rewrite Hne.
    destruct (String.eqb type "PREPARE_CACHES_FOR_UPDATE").
    { by rewrite (keeps_database_stored _ _ keeps_database_update_last_cache). }
    destruct (String.eqb type "retry-requests"); [|done].
    unfold bind, sync_in_registration. cbn [andb] in Hnd.
    by destruct (sync w).
  - unfold sync_handler. by rewrite Hnd.
Qed.

(* A drain event is a run of retry_requests. *)
Lemma handle_drain e w :
  is_drain e w = true → handle e w = snd (retry_requests w).
Proof.
  intros Hd. destruct e as [| |request|type|tag]; cbn [handle is_drain] in *;
    try discriminate.
  - apply andb_true_iff in Hd as [->%String.eqb_eq Hs].
    unfold message_handler. cbn [String.eqb Ascii.eqb Bool.eqb].
    unfold bind, sync_in_registration. by destruct (sync w).
  - unfold sync_handler. by rewrite Hd.
Qed.

(** C3 (as amended). A retry-eligible request intercepted offline is
    persisted when the request store opens and holds no record under the
    current timestamp. A stored record survives every event that is not
    a drain, and a drain over a store with unique keys keeps it exactly
    when its replay was rejected: a failed replay leaves the record
    queued, a fulfilled one removes it. *)
Theorem queued_record_lifetime (w : World) :
  (∀ request recs,
      online w = false → is_request_eligible_for_retry request = true →
      database w = DbReady recs → has_key (now w) recs = false →
      queued_record request (now w) ∈ stored (handle (EvFetch request) w))
  ∧ (∀ e q, is_drain e w = false → q ∈ stored w → q ∈ stored (handle e w))
  ∧ (∀ e recs i q,
      is_drain e w = true → database w = DbReady recs → store_wf recs →
      recs !! i = Some q →
      (q ∈ stored (handle e w) ↔ replay_settles w recs i q = rejected)).
Proof.
  split; [|split].
  - intros request recs Hoff Hel Hdb Hk. cbn [handle].
    rewrite (fetch_handler_queue _ _ Hoff Hel), store_request_run, Hdb, Hk.
    cbn [snd]. unfold stored, after_sync_register.
    destruct w as [? nw sy ? ? ? ? ? ? ?]; cbn.
    destruct sy; cbn; rewrite store_insert_perm; left.
  - intros e q. apply handle_stored.
  - intros e recs i q Hd Hdb Hwf Hi. rewrite (handle_drain e w Hd).
    by apply (retry_requests_keeps w recs).
Qed.

Lemma queued_record_lifetime_witness :
  let w1 := handle (EvFetch submit_post) (offline_world (DbReady [])) in
  queued_record submit_post 1000 ∈ stored w1
  ∧ queued_record submit_post 1000 ∈ stored (handle (EvActivate) w1)
  ∧ queued_record submit_post 1000 ∈ stored (handle (EvSync "retry-request") w1).
Proof.
  cbv zeta.
  pose proof (queued_record_lifetime (offline_world (DbReady []))) as (Hcap & _ & _).
  pose proof (Hcap submit_post [] eq_refl eq_refl eq_refl eq_refl) as H1.
  pose proof (queued_record_lifetime
                (handle (EvFetch submit_post) (offline_world (DbReady []))))
    as (_ & Hkeep & Hdrain).
  split; [exact H1|]. split.
  - exact (Hkeep EvActivate _ eq_refl H1).
  - apply (Hdrain (EvSync "retry-request") [queued_record submit_post 1000] 0%nat);
      [reflexivity|reflexivity|apply NoDup_singleton|reflexivity|reflexivity].
Defined.

(** C3, counterexample. An eligible request intercepted offline can be
    discarded without a trace: a second request captured in the same
    millisecond as a stored one, or any request while the database
    cannot be opened, is answered with the fallback as usual, no error
    surfaces, and no record of it is in the store. *)
Lemma eligible_request_silently_dropped :
  let vote := mkRequest "/vote" "PUT" None [] "cors" "omit" "default" in
  let w1 := handle (EvFetch vote) (offline_world (DbReady [])) in
  let r2 := fetch_handler submit_post w1 in
  let r3 := fetch_handler submit_post (offline_world DbUnavailable) in
  online w1 = false
  ∧ is_request_eligible_for_retry submit_post = true
  ∧ stored w1 = [queued_record vote 1000]
  ∧ fst r2 = Value (Some offline_page)
  ∧ stored (snd r2) = [queued_record vote 1000]
  ∧ fst r3 = Value (Some offline_page)
  ∧ stored (snd r3) = [].
Proof. cbv zeta. split_ands; by vm_compute. Qed.

(* --------------------------------------------------------------------- *)
(* 14. Installation                                                      *)
(* --------------------------------------------------------------------- *)

Lemma caches_open_frame n w :
  net (snd (caches_open n w)) = net w ∧ sent (snd (caches_open n w)) = sent w.
Proof. unfold caches_open. destruct (storage_lookup _ _); by destruct w. Qed.

Lemma create_indexed_db_caches config w :
  caches (snd (create_indexed_db config w)) = caches w.
Proof. unfold create_indexed_db. destruct w as [? ? ? db ? ? ? ? ? ?]. by destruct db. Qed.

Lemma eligible_iff request :
  is_request_eligible_for_retry request = true
  ↔ method request ∈ ["POST"; "PUT"; "DELETE"].
Proof.
  unfold is_request_eligible_for_retry, requests_to_retry_when_offline.
  rewrite orb_true_iff, !bool_decide_eq_true. split; [|by left].
  intros [H|H]; [done|]. by apply elem_of_nil in H.
Qed.

Lemma for_of_cache_put_run h (l : list (Request * Response)) w :
  for_of (fun e => cache_put h (url (fst e)) (snd e)) l w
  = (Value tt,
     set_caches (fold_left (λ cs e, storage_alter (cache_insert (url e.1) e.2) h cs)
                           l (caches w)) w).
Proof.
  revert w. induction l as [|e l IH]; intros w.
  - cbn. unfold ret. by rewrite set_caches_same.
  - cbn [for_of fold_left]. unfold bind at 1. unfold cache_put at 1.
    by rewrite IH, caches_set_caches, set_caches_twice.
Qed.

Lemma settled_addable_Some s r :
  settled_addable s = Some r ↔ s = fulfilled (Some r) ∧ addAll_accepts r = true.
Proof.
  split.
  - destruct s as [[r0|]|]; cbn; try done.
    destruct (addAll_accepts r0) eqn:Hok; [|done]. by intros [= <-].
  - intros [-> Hok]. cbn. by rewrite Hok.
Qed.

Lemma population_fails_throws w :
  population_fails w →
  let w1 := snd (caches_open cache_name w) in
  cache_addAll cache_name precache_requests w1
  = (Throws, set_sent (sent w1 ++ precache_requests) w1).
Proof.
  intros (i & file & Hi & Hbad). cbv zeta. rewrite cache_addAll_precache. cbv zeta.
  destruct (caches_open_frame cache_name w) as [-> ->].
  rewrite mapM_None_2; [done|].
  apply Exists_exists. eexists. split; [|exact Hbad].
  eapply list_elem_of_lookup_2. apply fetch_outcomes_lookup.
  unfold precache_requests. by rewrite list_lookup_fmap, Hi.
Qed.

Lemma population_throws_fails w :
  fst (cache_addAll cache_name precache_requests (snd (caches_open cache_name w))) = Throws →
  population_fails w.
Proof.
  rewrite cache_addAll_precache. cbv zeta.
  destruct (caches_open_frame cache_name w) as [-> ->].
  destruct (mapM settled_addable _) as [rs|] eqn:Hm.
  - by rewrite for_of_cache_put_value.
  - intros _. apply mapM_None_1 in Hm. apply Exists_exists in Hm as (s & Hs & Hbad).
    apply list_elem_of_lookup_1 in Hs as [i Hi].
    assert (is_Some (precache_requests !! i)) as [q Hq].
    { apply lookup_lt_is_Some.
      rewrite <- (fetch_outcomes_length (net w) (length (sent w))).
      by eapply lookup_lt_Some. }
    rewrite (fetch_outcomes_lookup _ _ _ _ _ Hq) in Hi. injection Hi as <-.
    unfold precache_requests in Hq. rewrite list_lookup_fmap in Hq.
    destruct (files_to_cache !! i) as [file|] eqn:Hfile; [|done].
    injection Hq as <-. by exists i, file.
Qed.

Lemma all_addable_outcomes nt n (reqs : list Request) (resp : nat → Response) k :
  (∀ i q, reqs !! i = Some q →
     settled_addable (settle (nt (n + i)%nat q)) = Some (resp (k + i)%nat)) →
  mapM settled_addable (fetch_outcomes nt n reqs) = Some (resp <$> seq k (length reqs)).
Proof.
  intros Hall. apply mapM_Some_2. revert n k Hall.
  induction reqs as [|q qs IH]; intros n k Hall; [constructor|].
  cbn [fetch_outcomes length seq fmap list_fmap]. constructor.
  - pose proof (Hall 0%nat q eq_refl) as Hn.
    by rewrite (Nat.add_0_r n), (Nat.add_0_r k) in Hn.
  - apply IH. intros i q' Hq'. pose proof (Hall (S i) q' Hq') as Hn.
    by rewrite (Nat.add_succ_r n), (Nat.add_succ_r k) in Hn.
Qed.

(* A first install whose precache requests are all answered with a
   response that addAll stores: the snapshot holds, for every url of the
   list, the response the network gave. *)
Lemma install_populated w (resp : nat → Response) :
  caches w = [] →
  (∀ i file, files_to_cache !! i = Some file →
     settled_addable (settle (net w (length (sent w) + i)%nat (precache_request file)))
     = Some (resp i)) →
  caches (snd (install_handler w))
  = [(cache_name, zip files_to_cache (resp <$> seq 0 (length files_to_cache)))].
Proof.
  intros Hempty Hnet.
  rewrite install_handler_run. cbn [snd]. rewrite create_indexed_db_caches.
  rewrite cache_addAll_precache. cbv zeta.
  destruct (caches_open_frame cache_name w) as [-> ->].
  rewrite (all_addable_outcomes (net w) (length (sent w)) precache_requests resp 0).
  - rewrite for_of_cache_put_run. cbn [snd]. rewrite caches_set_caches.
    replace (caches (set_sent _ _)) with [(cache_name, @nil (string * Response))].
    + reflexivity.
    + unfold caches_open. rewrite Hempty. by destruct w.
  - intros i q Hq. unfold precache_requests in Hq.
    rewrite list_lookup_fmap in Hq.
    destruct (files_to_cache !! i) as [file|] eqn:Hfile; [|done].
    injection Hq as <-. by apply Hnet.
Qed.

(* With the populated snapshot as the only cache, a GET for a precached
   url, with or without a query string, is answered from it and no
   request goes out. *)
Lemma snapshot_serves (resp : nat → Response) i file request w :
  caches w = [(cache_name, zip files_to_cache (resp <$> seq 0 (length files_to_cache)))] →
  files_to_cache !! i = Some file →
  method request = "GET" →
  strip_search (url request) = file →
  fetch_handler request w
  = (Value (Some (if redirected (resp i) then clean_redirect (resp i) else resp i)), w).
Proof.
  intros Hc Hfile Hm Hu.
  assert (Hbr : negb (online w) && is_request_eligible_for_retry request = false).
  { apply andb_false_iff. right. apply not_true_is_false.
    rewrite eligible_iff, Hm. apply (bool_decide_unpack _). by vm_compute. }
  rewrite (fetch_handler_live _ _ Hbr).
  assert (Hhit : cached_response request w = Some (resp i)).
  { unfold cached_response. rewrite Hm, Hc.
    cbn [String.eqb Ascii.eqb Bool.eqb storage_match].
    unfold cache_lookup, url_matches. rewrite Hu.
    do 9 (destruct i as [|i]; [injection Hfile as <-; reflexivity|]).
    discriminate. }
  by rewrite Hhit.
Qed.

(** C7 (as amended). A failure of the bulk population or of the schema
    initialization during install is swallowed: the promise given to the
    platform fulfils, so the installation is not aborted and the worker
    is installed. The population fails exactly when one of the precache
    requests is not answered with a response that addAll stores (fetch
    rejected, status outside 200..299 or 206, or Vary: * among the
    headers). A failed population writes no entry; starting without
    snapshots it leaves an empty current snapshot, so that afterwards
    every request outside the offline-queue branch goes to the network
    and is answered by it, or with nothing when the fetch throws. A
    failed schema initialization leaves the worker without a request
    store; whatever the database does, a population that does not fail
    fills the snapshot with the responses of the network, and every
    later GET for a precached url is answered from it without a
    request. *)
Theorem install_failure_swallowed (w : World) :
  let w' := snd (install_handler w) in
  fst (install_handler w) = Value tt
  ∧ fst (dispatch_install w) = Installed
  ∧ (population_fails w
     ↔ fst (cache_addAll cache_name precache_requests (snd (caches_open cache_name w)))
       = Throws)
  ∧ (population_fails w → caches w' = caches (snd (caches_open cache_name w)))
  ∧ (population_fails w → caches w = [] →
       caches w' = [(cache_name, [])]
       ∧ ∀ request,
           negb (online w') && is_request_eligible_for_retry request = false →
           fetch_handler request w'
           = (Value (match net w' (length (sent w')) request with
                     | Fulfilled r => r
                     | Rejected => None
                     end),
              set_sent (sent w' ++ [request]) w'))
  ∧ (database w = DbUnavailable → database w' = DbUnavailable ∧ stored w' = [])
  ∧ (¬ population_fails w → caches w = [] →
       ∃ resp : nat → Response,
         caches w'
         = [(cache_name, zip files_to_cache (resp <$> seq 0 (length files_to_cache)))]
         ∧ ∀ i file,
             files_to_cache !! i = Some file →
             settle (net w (length (sent w) + i)%nat (precache_request file))
             = fulfilled (Some (resp i))
             ∧ ∀ request,
                 method request = "GET" → strip_search (url request) = file →
                 fetch_handler request w'
                 = (Value (Some (if redirected (resp i) then clean_redirect (resp i)
                                 else resp i)),
                    w')).
Proof.
  cbv zeta. unfold dispatch_install.
  assert (Hc : population_fails w →
               caches (snd (install_handler w))
               = caches (snd (caches_open cache_name w))).
  { intros Hf. rewrite install_handler_run. cbn [snd].
    rewrite create_indexed_db_caches.
    pose proof (population_fails_throws w Hf) as Hthrow. cbv zeta in Hthrow.
    rewrite Hthrow. cbn [snd]. by destruct (snd (caches_open cache_name w)). }
  split; [by rewrite install_handler_run|]. split; [by rewrite install_handler_run|].
  split; [|split; [exact Hc|split; [|split]]].
  - split; [|apply population_throws_fails].
    intros Hf. pose proof (population_fails_throws w Hf) as Hthrow.
    cbv zeta in Hthrow. by rewrite Hthrow.
  - intros Hf Hempty. specialize (Hc Hf).
    assert (Hcs : caches (snd (caches_open cache_name w)) = [(cache_name, [])]).
    { unfold caches_open. rewrite Hempty. cbn. by destruct w. }
    rewrite Hcs in Hc. split; [exact Hc|].
    intros request Hbr. rewrite (fetch_handler_live _ _ Hbr).
    unfold cached_response, offline_fallback. rewrite Hc.
    cbn [storage_match cache_lookup List.find fmap option_fmap option_map].
    destruct (String.eqb (method request) "GET"); cbv zeta;
      by destruct (net _ _ request).
  - intros Hdb. rewrite install_handler_run. cbn [snd].
    assert (database (snd (create_indexed_db idb_config
                 (snd (cache_addAll cache_name precache_requests
                         (snd (caches_open cache_name w)))))) = DbUnavailable) as Hd.
    { unfold create_indexed_db.
      rewrite (keeps_database_cache_addAll _ _ _), (keeps_database_caches_open _ _), Hdb.
      cbn [snd].
      by rewrite (keeps_database_cache_addAll _ _ _), (keeps_database_caches_open _ _). }
    split; [exact Hd|]. unfold stored. by rewrite Hd.
  - intros Hok Hempty.
    set (fetched := λ i,
           settled_addable
             (settle (net w (length (sent w) + i)%nat
                        (precache_request (nth i files_to_cache EmptyString))))).
    set (resp := λ i, default (mkResponse 0 EmptyString [] EmptyString false) (fetched i)).
    assert (Hall : ∀ i file, files_to_cache !! i = Some file →
              settled_addable
                (settle (net w (length (sent w) + i)%nat (precache_request file)))
              = Some (resp i)).
    { intros i file Hfile. unfold resp, fetched.
      rewrite (nth_lookup_Some _ _ _ _ Hfile).
      destruct (settled_addable _) as [r|] eqn:Hr; [done|].
      destruct Hok. by exists i, file. }
    exists resp. split; [by apply install_populated|].
    intros i file Hfile. split.
    + by apply settled_addable_Some, Hall.
    + intros request Hm Hu.
      apply (snapshot_serves resp i file); [by apply install_populated|done..].
Qed.

Lemma network_down_population_fails db :
  population_fails (install_world db (fun _ _ => Rejected)).
Proof. exists 0%nat, "/". by split. Qed.

Lemma origin_up_population_succeeds db :
  ¬ population_fails (install_world db origin_up).
Proof.
  intros (i & file & Hfile & Hbad).
  do 9 (destruct i as [|i]; [injection Hfile as <-; discriminate Hbad|]).
  discriminate.
Qed.

Lemma install_failure_swallowed_witness :
  let w := install_world DbAbsent (fun _ _ => Rejected) in
  let nodb := install_world DbUnavailable origin_up in
  let index := mkRequest "/index.html" "GET" None [] "navigate" "include" "default" in
  fst (dispatch_install w) = Installed
  ∧ caches (snd (install_handler w)) = [(cache_name, [])]
  ∧ database (snd (install_handler nodb)) = DbUnavailable
  ∧ fst (fetch_handler index (snd (install_handler nodb)))
    = Value (Some (old_page "/index.html")).
Proof.
  cbv zeta.
  pose proof (install_failure_swallowed (install_world DbAbsent (fun _ _ => Rejected)))
    as (_ & Hinst & _ & _ & Hlive & _).
  pose proof (install_failure_swallowed (install_world DbUnavailable origin_up))
    as (_ & _ & _ & _ & _ & Hdb & Hserve).
  split; [exact Hinst|].
  split; [exact (proj1 (Hlive (network_down_population_fails DbAbsent) eq_refl))|].
  split; [exact (proj1 (Hdb eq_refl))|].
  destruct (Hserve (origin_up_population_succeeds DbUnavailable) eq_refl)
    as (resp & _ & Hs).
  destruct (Hs 3%nat "/index.html" eq_refl) as [Hr Hf].
  rewrite (Hf (mkRequest "/index.html" "GET" None [] "navigate" "include" "default")
              eq_refl eq_refl).
  injection Hr as <-. reflexivity.
Defined.

(** C7, counterexample. A failed install is not aborted and does not
    always leave a live-network-only worker: with the network down the
    population fails and the worker is installed all the same; with the
    database unavailable the schema initialization fails, the worker is
    installed with a populated snapshot and serves /index.html from it
    without any fetch. *)
Lemma failed_install_not_aborted :
  let down := install_world DbAbsent (fun _ _ => Rejected) in
  let nodb := install_world DbUnavailable
                (fun _ r => Fulfilled (Some (old_page (url r)))) in
  let index := mkRequest "/index.html" "GET" None [] "navigate" "include" "default" in
  population_fails down
  ∧ fst (dispatch_install down) = Installed
  ∧ fst (create_indexed_db idb_config nodb) = Throws
  ∧ fst (dispatch_install nodb) = Installed
  ∧ fetch_handler index (snd (dispatch_install nodb))
    = (Value (Some (old_page "/index.html")), snd (dispatch_install nodb)).
Proof.
  cbv zeta. split; [apply network_down_population_fails|].
  split_ands; by vm_compute.
Qed.

(* --------------------------------------------------------------------- *)
(* 15. Unique keys are an invariant of the request store                 *)
(* --------------------------------------------------------------------- *)

Lemma has_key_false k recs :
  has_key k recs = false → k ∉ timestamp <$> recs.
Proof.
  unfold has_key. induction recs as [|r rs IH]; cbn.
  - intros _. apply not_elem_of_nil.
  - intros [Hr Hrs]%orb_false_iff. apply not_elem_of_cons. split; [|by apply IH].
    apply Z.eqb_neq in Hr. congruence.
Qed.

Lemma store_insert_wf r recs :
  has_key (timestamp r) recs = false → store_wf recs → store_wf (store_insert r recs).
Proof.
  unfold store_wf. intros Hk Hwf.
  rewrite (fmap_Permutation timestamp _ _ (store_insert_perm r recs)), fmap_cons.
  apply NoDup_cons. split; [by apply has_key_false|done].
Qed.

Lemma failed_records_wf {A} (outs : list (Settled A)) recs :
  store_wf recs → store_wf (failed_records outs recs).
Proof.
  unfold store_wf. intros Hwf.
  eapply sublist_NoDup; [exact Hwf|apply fmap_sublist, failed_records_sublist].
Qed.

Lemma fetch_handler_store_wf request w :
  store_wf (stored w) → store_wf (stored (snd (fetch_handler request w))).
Proof.
  intros Hwf.
  destruct (negb (online w) && is_request_eligible_for_retry request) eqn:Hbr.
  - apply andb_true_iff in Hbr as [Hoff%negb_true_iff Hel].
    rewrite (fetch_handler_queue _ _ Hoff Hel), store_request_run.
    unfold stored, after_sync_register in *.
    destruct w as [? nw sy db ? ? ? ? ? ?]; cbn in *.
    destruct db as [| | |recs]; cbn; try done.
    destruct (has_key nw recs) eqn:Hk; cbn; [done|].
    destruct sy; cbn; by apply store_insert_wf.
  - rewrite (fetch_handler_live _ _ Hbr). cbv zeta.
    destruct (cached_response request w); [done|].
    destruct (net w _ request); by destruct w.
Qed.

Lemma retry_requests_store_wf w :
  store_wf (stored w) → store_wf (stored (snd (retry_requests w))).
Proof.
  intros Hwf. destruct (database w) as [| | |recs] eqn:Hdb.
  - rewrite retry_requests_run, Hdb. unfold stored. cbn [snd]. rewrite Hdb.
    apply NoDup_nil_2.
  - rewrite retry_requests_run, Hdb. destruct w. apply NoDup_nil_2.
  - rewrite retry_requests_run, Hdb. unfold stored. cbn [snd]. rewrite Hdb.
    apply NoDup_nil_2.
  - unfold stored in Hwf. rewrite Hdb in Hwf.
    rewrite (retry_requests_ready_stored w recs Hdb Hwf).
    by apply failed_records_wf.
Qed.

(* Whatever events arrive, the request store keeps one record per key. *)
Lemma handle_store_wf e w :
  store_wf (stored w) → store_wf (stored (handle e w)).
Proof.
  intros Hwf. destruct (is_drain e w) eqn:Hd.
  { rewrite (handle_drain e w Hd). by apply retry_requests_store_wf. }
  destruct e as [| |request|type|tag]; cbn [handle is_drain] in *.
  - rewrite install_handler_run. cbn [snd].
    unfold stored, create_indexed_db in *.
    rewrite (keeps_database_cache_addAll _ _ _), (keeps_database_caches_open _ _).
    destruct (database w) eqn:Hdb; cbn [snd];
      rewrite ?(keeps_database_cache_addAll _ _ _), ?(keeps_database_caches_open _ _), ?Hdb;
      done.
  - rewrite activate_handler_run. by destruct w.
  - by apply fetch_handler_store_wf.
  - destruct (String.eqb_spec type "SKIP_WAITING") as [->|Hne%String.eqb_neq].
    { rewrite message_skip_waiting_run. destruct (Nat.ltb _ _); by destruct w. }
    unfold message_handler. rewrite Hne.
    destruct (String.eqb type "PREPARE_CACHES_FOR_UPDATE").
    { by rewrite (keeps_database_stored _ _ keeps_database_update_last_cache). }
    destruct (String.eqb type "retry-requests"); [|done].
    unfold bind, sync_in_registration. cbn [andb] in Hd.
    by destruct (sync w).
  - unfold sync_handler. by rewrite Hd.
Qed.


(* --------------------------------------------------------------------- *)
(* 16. More on the fetch handler                                         *)
(* --------------------------------------------------------------------- *)

(** X1. The promise the fetch handler gives to respondWith never rejects,
    for any request and any state of the platform; it stays pending
    only for a retry-eligible request intercepted offline while the
    database has no request store. *)
Theorem fetch_handler_never_rejects (w : World) (request : Request) :
  fst (fetch_handler request w) ≠ Throws
  ∧ (fst (fetch_handler request w) = Hangs →
       online w = false
       ∧ method request ∈ ["POST"; "PUT"; "DELETE"]
       ∧ (database w = DbAbsent ∨ database w = DbNoStore)).
Proof.
  destruct (negb (online w) && is_request_eligible_for_retry request) eqn:Hbr.
  - apply andb_true_iff in Hbr as [Hoff%negb_true_iff Hel].
    rewrite (fetch_handler_queue _ _ Hoff Hel), store_request_run.
    apply eligible_iff in Hel.
    destruct (database w) as [| | |recs] eqn:Hdb; cbn [fst];
      [| | |destruct (has_key _ _)]; cbn [fst];
      (split; [done|]); intros Hh; try discriminate; split_ands; auto.
  - rewrite (fetch_handler_live _ _ Hbr). cbv zeta.
    destruct (cached_response request w); [done|].
    by destruct (net w _ request).
Qed.

Lemma fetch_handler_never_rejects_witness :
  fst (fetch_handler submit_post (offline_world DbNoStore)) = Hangs
  ∧ online (offline_world DbNoStore) = false
  ∧ database (offline_world DbNoStore) = DbNoStore.
Proof.
  pose proof (fetch_handler_never_rejects (offline_world DbNoStore) submit_post)
    as [_ Hh].
  destruct (Hh eq_refl) as (Hoff & _ & _).
  split; [reflexivity|]. split; [exact Hoff|reflexivity].
Defined.

(** X2. The fetch handler never writes to the caches (a response that
    came from the network is not cached) and issues at most one fetch,
    for the intercepted request itself; it changes neither the clients
    nor the waiting flag. *)
Theorem fetch_handler_frame (w : World) (request : Request) :
  let w' := snd (fetch_handler request w) in
  caches w' = caches w
  ∧ (sent w' = sent w ∨ sent w' = sent w ++ [request])
  ∧ clients w' = clients w
  ∧ skipped_waiting w' = skipped_waiting w.
Proof.
  cbv zeta.
  destruct (negb (online w) && is_request_eligible_for_retry request) eqn:Hbr.
  - apply andb_true_iff in Hbr as [Hoff%negb_true_iff Hel].
    rewrite (fetch_handler_queue _ _ Hoff Hel), store_request_run.
    unfold after_sync_register.
    destruct w as [? nw sy db ? ? ? ? ? ?]; cbn.
    destruct db as [| | |recs]; cbn; [| | |destruct (has_key nw recs); [|destruct sy]];
      cbn; split_ands; try done; by left.
  - rewrite (fetch_handler_live _ _ Hbr). cbv zeta.
    destruct (cached_response request w); [split_ands; try done; by left|].
    destruct (net w _ request); destruct w; cbn; split_ands; try done; by right.
Qed.

(** X3. A request outside the offline-queue branch that has a cached
    match is answered from the cache alone: nothing is fetched, nothing
    changes, and the answer carries the cached status, status text,
    headers and body with the redirected flag cleared; a cached response
    that was not redirected is returned as it is. *)
Theorem fetch_handler_cache_first (w : World) (request : Request) (r : Response) :
  negb (online w) && is_request_eligible_for_retry request = false →
  fst (caches_match request true w) = Value (Some r) →
  ∃ r', fetch_handler request w = (Value (Some r'), w)
        ∧ redirected r' = false
        ∧ status r' = status r ∧ statusText r' = statusText r
        ∧ resp_headers r' = resp_headers r ∧ resp_body r' = resp_body r
        ∧ (redirected r = false → r' = r).
Proof.
  intros Hbr Hhit. rewrite (fetch_handler_live _ _ Hbr).
  unfold caches_match in Hhit. cbn [fst] in Hhit. injection Hhit as Hhit.
  unfold cached_response. rewrite Hhit.
  eexists. split; [reflexivity|].
  destruct r as [st tx hd bd []]; cbn; split_ands; done.
Qed.

Lemma fetch_handler_cache_first_witness :
  let w := online_world [(cache_name, [("/about", redirected_page)])]
                        (fun _ _ => Rejected) in
  ∃ r', fetch_handler about_get w = (Value (Some r'), w)
        ∧ redirected r' = false
        ∧ resp_body r' = resp_body redirected_page.
Proof.
  destruct (fetch_handler_cache_first
              (online_world [(cache_name, [("/about", redirected_page)])]
                            (fun _ _ => Rejected))
              about_get redirected_page eq_refl eq_refl)
    as (r' & Hrun & Hred & _ & _ & _ & Hbody & _).
  exists r'. split; [exact Hrun|]. split; [exact Hred|exact Hbody].
Defined.

Lemma strip_search_query u q :
  strip_search (String.append u (String "?" q)) = strip_search u.
Proof.
  induction u as [|c u IH]; [reflexivity|].
  change (String c u +:+ String "?" q) with (String c (u +:+ String "?" q)).
  cbn [strip_search].
  destruct (Ascii.eqb c "?"); [done|]. by rewrite IH.
Qed.

Lemma cached_response_strip request request' w :
  method request' = method request →
  strip_search (url request') = strip_search (url request) →
  cached_response request' w = cached_response request w.
Proof.
  intros Hm Hu. unfold cached_response. rewrite Hm.
  destruct (String.eqb (method request) "GET"); [|done].
  induction (caches w) as [|[n c] cs IH]; [done|].
  cbn [storage_match]. rewrite IH.
  unfold cache_lookup, url_matches. by rewrite Hu.
Qed.

(** X4. The cache lookup of the fetch handler ignores the query string:
    appending a query string to the url of a request changes neither
    what the caches answer nor, when they do answer, what the handler
    returns. *)
Theorem fetch_handler_ignores_query (w : World) (request : Request) (q : string) :
  fst (caches_match (with_query request q) true w) = fst (caches_match request true w)
  ∧ (negb (online w) && is_request_eligible_for_retry request = false →
     is_Some (cached_response request w) →
     fetch_handler (with_query request q) w = fetch_handler request w).
Proof.
  assert (Hc : cached_response (with_query request q) w = cached_response request w).
  { apply cached_response_strip; [done|]. apply strip_search_query. }
  split; [exact (f_equal Value Hc)|].
  intros Hbr [r Hr].
  rewrite (fetch_handler_live request w Hbr), (fetch_handler_live (with_query request q) w).
  - by rewrite Hc, Hr.
  - rewrite <- Hbr. reflexivity.
Qed.

Lemma fetch_handler_ignores_query_witness :
  let w := online_world [(cache_name, [("/offline.html", offline_page)])]
                        (fun _ _ => Rejected) in
  let offline_get :=
    mkRequest "/offline.html" "GET" None [] "cors" "same-origin" "default" in
  fetch_handler (with_query offline_get "lang=en") w = fetch_handler offline_get w.
Proof.
  cbv zeta.
  apply (fetch_handler_ignores_query
           (online_world [(cache_name, [("/offline.html", offline_page)])]
                         (fun _ _ => Rejected))
           (mkRequest "/offline.html" "GET" None [] "cors" "same-origin" "default")
           "lang=en"); [reflexivity|by eexists].
Defined.

(** X5. When a request outside the offline-queue branch has no cached
    match and the network answers, the handler returns the network's
    response as it is, whatever its status: an error response (4xx, 5xx)
    is passed through and not replaced by the offline fallback. *)
Theorem fetch_handler_passes_response_through
    (w : World) (request : Request) (r : Response) :
  negb (online w) && is_request_eligible_for_retry request = false →
  fst (caches_match request true w) = Value None →
  net w (length (sent w)) request = Fulfilled (Some r) →
  fetch_handler request w = (Value (Some r), set_sent (sent w ++ [request]) w).
Proof.
  intros Hbr Hmiss Hnet. rewrite (fetch_handler_live _ _ Hbr).
  unfold caches_match in Hmiss. cbn [fst] in Hmiss. injection Hmiss as Hmiss.
  unfold cached_response. rewrite Hmiss. cbv zeta. by rewrite Hnet.
Qed.

Lemma fetch_handler_passes_response_through_witness :
  let w := online_world [(cache_name, [("/offline.html", offline_page)])] not_found in
  fst (fetch_handler quiz_get w)
  = Value (Some (mkResponse 404 "Not Found" [] "no such quiz" false)).
Proof.
  cbv zeta.
  rewrite (fetch_handler_passes_response_through
             (online_world [(cache_name, [("/offline.html", offline_page)])] not_found)
             quiz_get (mkResponse 404 "Not Found" [] "no such quiz" false)
             eq_refl eq_refl eq_refl).
  reflexivity.
Defined.

(** X6. Only POST, PUT and DELETE requests intercepted offline reach the
    request store (the url allow-list is empty): while online, or for
    any other method such as GET or PATCH, the fetch handler leaves the
    database and the registered sync tags exactly as they were. *)
Theorem fetch_handler_store_untouched (w : World) (request : Request) :
  online w = true ∨ method request ∉ ["POST"; "PUT"; "DELETE"] →
  let w' := snd (fetch_handler request w) in
  database w' = database w ∧ sync_tags w' = sync_tags w.
Proof.
  intros Hcase. cbv zeta.
  assert (Hbr : negb (online w) && is_request_eligible_for_retry request = false).
  { destruct Hcase as [->|Hm]; [done|].
    apply andb_false_iff. right. apply not_true_is_false.
    by rewrite eligible_iff. }
  rewrite (fetch_handler_live _ _ Hbr). cbv zeta.
  destruct (cached_response request w); [done|].
  destruct (net w _ request); by destruct w.
Qed.

Lemma fetch_handler_store_untouched_witness :
  database (snd (fetch_handler patch_request (offline_world (DbReady []))))
  = DbReady [].
Proof.
  refine (proj1 (fetch_handler_store_untouched (offline_world (DbReady []))
                   patch_request _)).
  right. apply (bool_decide_unpack _). by vm_compute.
Defined.

(* --------------------------------------------------------------------- *)
(* 17. More on the request store and its triggers                        *)
(* --------------------------------------------------------------------- *)

Lemma store_insert_ne r recs : store_insert r recs ≠ recs.
Proof.
  intros Heq. pose proof (Permutation_length (store_insert_perm r recs)) as Hlen.
  rewrite Heq in Hlen. cbn in Hlen. lia.
Qed.

(** X7. store_request never rejects and touches neither the caches nor
    the network. When it stores the record, the tag retry-request is
    registered once if the sync manager accepts it, and the record stays
    stored when the sync manager is missing or refuses the registration;
    when no record is stored, no tag is registered. *)
Theorem store_request_sync_registration (w : World) (request : Request) :
  let w' := snd (store_request request w) in
  fst (store_request request w) ≠ Throws
  ∧ caches w' = caches w
  ∧ sent w' = sent w
  ∧ (∀ recs, database w = DbReady recs → has_key (now w) recs = false →
       database w' = DbReady (store_insert (queued_record request (now w)) recs)
       ∧ sync_tags w' = sync_tags w ++ match sync w with
                                       | SyncGranted => ["retry-request"]
                                       | _ => []
                                       end)
  ∧ (stored w' = stored w → sync_tags w' = sync_tags w).
Proof.
  cbv zeta. rewrite store_request_run. unfold stored, after_sync_register.
  destruct w as [? nw sy db ? ? ? ? tg ?]; cbn.
  destruct db as [| | |recs]; cbn; [| | |destruct (has_key nw recs) eqn:Hk; cbn];
    try (split_ands; try done; intros recs' [= <-] ?; congruence).
  destruct sy; cbn; split_ands; try done;
    try (intros recs' [= <-] _; by rewrite ?app_nil_r);
    intros Heq; by apply store_insert_ne in Heq.
Qed.

Lemma store_request_sync_registration_witness :
  let w' := snd (store_request submit_post sync_denied_world) in
  database w' = DbReady [queued_record submit_post 1000]
  ∧ sync_tags w' = [].
Proof.
  pose proof (store_request_sync_registration sync_denied_world submit_post)
    as (_ & _ & _ & Hadd & _).
  exact (Hadd [] eq_refl eq_refl).
Defined.

(** X8. The tag that store_request registers with the sync manager is
    one the sync handler answers with a drain: for every tag newly
    registered by store_request, sync_handler runs retry_requests. *)
Theorem registered_tag_is_drained (w : World) (request : Request) (tag : string) :
  tag ∈ sync_tags (snd (store_request request w)) →
  tag ∉ sync_tags w →
  ∀ w2, sync_handler tag w2 = retry_requests w2.
Proof.
  rewrite store_request_run. unfold after_sync_register.
  destruct w as [? nw sy db ? ? ? ? tg ?]; cbn.
  destruct db as [| | |recs]; cbn; try done.
  destruct (has_key nw recs); cbn; [done|].
  destruct sy; cbn; try done.
  intros [Hin|Hin]%elem_of_app Hnew; [done|].
  apply list_elem_of_singleton in Hin as ->. reflexivity.
Qed.

Lemma registered_tag_is_drained_witness :
  sync_handler "retry-request" (offline_world (DbReady []))
  = retry_requests (offline_world (DbReady [])).
Proof.
  apply (registered_tag_is_drained (offline_world (DbReady [])) submit_post).
  - apply (bool_decide_unpack _). by vm_compute.
  - apply not_elem_of_nil.
Defined.

Lemma message_retry_requests_run w :
  message_handler "retry-requests" w
  = match sync w with
    | NoSync => retry_requests w
    | _ => (Value tt, w)
    end.
Proof.
  unfold message_handler. cbn [String.eqb Ascii.eqb Bool.eqb].
  unfold bind, sync_in_registration. by destruct (sync w).
Qed.

(** X9. The retry-requests message drains the queue only when the
    registration has no sync manager: with one, the message changes
    nothing and issues no fetch, whatever is queued; without one, it is
    a run of retry_requests. *)
Theorem message_retry_requests_gate (w : World) :
  (sync w ≠ NoSync → message_handler "retry-requests" w = (Value tt, w))
  ∧ (sync w = NoSync → message_handler "retry-requests" w = retry_requests w).
Proof.
  rewrite message_retry_requests_run.
  split; intros Hs; destruct (sync w); done.
Qed.

Lemma message_retry_requests_gate_witness :
  message_handler "retry-requests"
    (snd (store_request submit_post (offline_world (DbReady []))))
  = (Value tt, snd (store_request submit_post (offline_world (DbReady [])))).
Proof.
  apply (proj1 (message_retry_requests_gate
                  (snd (store_request submit_post (offline_world (DbReady [])))))).
  discriminate.
Defined.

(** X10. When the sync manager refuses registrations, a request captured
    offline is stored without any sync tag, and the retry-requests
    message does not replay it either: the record stays in the store and
    nothing is fetched. *)
Theorem sync_denied_record_not_drained
    (w : World) (request : Request) (recs : list QueuedRequest) :
  sync w = SyncDenied →
  database w = DbReady recs →
  has_key (now w) recs = false →
  let w1 := snd (store_request request w) in
  let w2 := snd (message_handler "retry-requests" w1) in
  queued_record request (now w) ∈ stored w1
  ∧ sync_tags w1 = sync_tags w
  ∧ w2 = w1.
Proof.
  intros Hs Hdb Hk. cbv zeta. rewrite store_request_run, Hdb, Hk.
  unfold after_sync_register. cbn [snd].
  assert (Hs' : sync (set_database
                        (DbReady (store_insert (queued_record request (now w)) recs)) w)
                = SyncDenied) by (by destruct w).
  rewrite Hs'. split; [|split].
  - unfold stored. destruct w; cbn. rewrite store_insert_perm. left.
  - by destruct w.
  - by rewrite message_retry_requests_run, Hs'.
Qed.

Lemma sync_denied_record_not_drained_witness :
  let w1 := snd (store_request submit_post sync_denied_world) in
  queued_record submit_post 1000 ∈ stored w1
  ∧ snd (message_handler "retry-requests" w1) = w1.
Proof.
  pose proof (sync_denied_record_not_drained sync_denied_world submit_post []
                eq_refl eq_refl eq_refl) as (Hin & _ & Hsame).
  split; [exact Hin|exact Hsame].
Defined.

Lemma fulfilled_keys_all_rejected {A} (outs : list (Settled A)) recs :
  Forall (λ o, is_fulfilled o = false) outs → fulfilled_keys outs recs = [].
Proof.
  intros Hall. revert recs. induction Hall as [|o os Ho _ IH]; intros [|r rs];
    cbn; try done. by rewrite Ho.
Qed.

Lemma fulfilled_keys_all_fulfilled {A} (outs : list (Settled A)) recs :
  length outs = length recs →
  Forall (λ o, is_fulfilled o = true) outs →
  fulfilled_keys outs recs = timestamp <$> recs.
Proof.
  intros Hlen Hall. revert recs Hlen.
  induction Hall as [|o os Ho _ IH]; intros [|r rs] Hlen; try done.
  cbn. rewrite Ho. f_equal. apply IH. by injection Hlen.
Qed.

Lemma replay_outcomes_Forall w (recs : list QueuedRequest)
    (P : Settled (option Response) → Prop) :
  (∀ i r, recs !! i = Some r → P (replay_settles w recs i r)) →
  Forall P (replay_outcomes (net w) (length (sent w)) recs).
Proof.
  intros HP. apply Forall_lookup_2. intros i o Ho.
  assert (is_Some (recs !! i)) as [r Hr].
  { apply lookup_lt_is_Some. apply lookup_lt_Some in Ho.
    by rewrite replay_outcomes_length in Ho. }
  rewrite (replay_outcomes_lookup w recs i r Hr) in Ho. injection Ho as <-.
  by apply HP.
Qed.

Lemma filter_none {A} (P : A → Prop) `{!∀ x, Decision (P x)} (l : list A) :
  (∀ x, x ∈ l → ¬ P x) → filter P l = [].
Proof.
  induction l as [|a l IH]; intros Hl; [done|].
  rewrite filter_cons_False by (apply Hl; left).
  apply IH. intros x Hx. apply Hl. by right.
Qed.

(** X11. A drain that cannot open the database rejects before any fetch
    and changes nothing, and the sync handler hands that rejection to
    the platform; a drain over an empty store fulfils, fetches nothing
    and changes nothing. *)
Theorem retry_requests_without_records (w : World) :
  (database w = DbUnavailable →
     retry_requests w = (Throws, w) ∧ sync_handler "retry-request" w = (Throws, w))
  ∧ (database w = DbReady [] → retry_requests w = (Value tt, w)).
Proof.
  split; intros Hdb.
  - assert (retry_requests w = (Throws, w)) by (by rewrite retry_requests_run, Hdb).
    done.
  - rewrite retry_requests_run, Hdb.
    destruct w as [? ? ? db ? ? ? se ? ?]; cbn in *. subst db.
    by rewrite app_nil_r.
Qed.

Lemma retry_requests_without_records_witness :
  retry_requests (offline_world DbUnavailable) = (Throws, offline_world DbUnavailable)
  ∧ retry_requests (offline_world (DbReady []))
    = (Value tt, offline_world (DbReady [])).
Proof.
  pose proof (retry_requests_without_records (offline_world DbUnavailable)) as [Hu _].
  pose proof (retry_requests_without_records (offline_world (DbReady []))) as [_ He].
  split; [exact (proj1 (Hu eq_refl))|exact (He eq_refl)].
Defined.

(** X12. A drain is all-or-nothing per record and needs no retry state:
    when every replay is rejected the request store is left exactly as
    it was, and when every replay fulfils the store is left empty. *)
Theorem retry_requests_all_or_nothing (w : World) (recs : list QueuedRequest) :
  database w = DbReady recs →
  let w' := snd (retry_requests w) in
  ((∀ i r, recs !! i = Some r → replay_settles w recs i r = rejected) →
     database w' = DbReady recs)
  ∧ ((∀ i r, recs !! i = Some r → ∃ v, replay_settles w recs i r = fulfilled v) →
     database w' = DbReady []).
Proof.
  intros Hdb. cbv zeta. rewrite retry_requests_run, Hdb. cbv zeta. cbn [snd].
  assert (Hd : ∀ d ws, database (set_database d ws) = d) by (by intros ? []).
  rewrite Hd. split; intros Hall.
  - rewrite fulfilled_keys_all_rejected.
    + f_equal. apply filter_all. intros q _. apply not_elem_of_nil.
    + apply replay_outcomes_Forall. intros i r Hr. by rewrite (Hall i r Hr).
  - rewrite fulfilled_keys_all_fulfilled.
    + f_equal. apply filter_none. intros q Hq Hn.
      apply Hn, list_elem_of_fmap. eauto.
    + by rewrite replay_outcomes_length.
    + apply replay_outcomes_Forall. intros i r Hr.
      destruct (Hall i r Hr) as [v ->]. done.
Qed.

Lemma retry_requests_all_or_nothing_witness :
  let recs := [vote_record 1000 "/vote/1"; vote_record 1001 "/vote/2"] in
  database (snd (retry_requests (drain_world recs (fun _ _ => Rejected))))
  = DbReady recs
  ∧ database (snd (retry_requests (drain_world recs server_error))) = DbReady [].
Proof.
  cbv zeta. split.
  - apply (retry_requests_all_or_nothing
             (drain_world [vote_record 1000 "/vote/1"; vote_record 1001 "/vote/2"]
                          (fun _ _ => Rejected)) _ eq_refl).
    intros i r _. unfold replay_settles. by destruct (replay_request r).
  - apply (retry_requests_all_or_nothing
             (drain_world [vote_record 1000 "/vote/1"; vote_record 1001 "/vote/2"]
                          server_error) _ eq_refl).
    intros [|[|i]] r Hr; [injection Hr as <-; eexists; reflexivity..|discriminate Hr].
Defined.

(** X13. A drain only ever removes records: whatever the state of the
    database and of the network, the records stored afterwards are
    records that were stored before, in the same order; the caches, the
    clients and the registered sync tags are not touched. *)
Theorem retry_requests_only_shrinks (w : World) :
  let w' := snd (retry_requests w) in
  stored w' `sublist_of` stored w
  ∧ caches w' = caches w
  ∧ clients w' = clients w
  ∧ sync_tags w' = sync_tags w.
Proof.
  cbv zeta. rewrite retry_requests_run. unfold stored.
  destruct w as [? ? ? db ? ? ? ? ? ?]; cbn.
  destruct db as [| | |recs]; cbn; split_ands; try done.
  apply sublist_filter.
Qed.

(* --------------------------------------------------------------------- *)
(* 18. The database schema                                               *)
(* --------------------------------------------------------------------- *)

(** X14. create_indexed_db keeps every stored record and is idempotent:
    a second run changes nothing more and settles like the first. On a
    database that did not exist or already had the request store, the
    store can be opened afterwards. *)
Theorem create_indexed_db_idempotent (w : World) :
  let w1 := snd (create_indexed_db idb_config w) in
  stored w1 = stored w
  ∧ create_indexed_db idb_config w1 = (fst (create_indexed_db idb_config w), w1)
  ∧ (database w = DbAbsent ∨ (∃ recs, database w = DbReady recs) →
       fst (create_indexed_db idb_config w) = Value tt
       ∧ open_store (requestStore idb_config) "readwrite" w1 = (Value tt, w1)).
Proof.
  cbv zeta. unfold create_indexed_db, open_store, get_store_factory, stored.
  destruct w as [? ? ? db ? ? ? ? ? ?]; cbn.
  destruct db as [| | |recs]; cbn; split_ands; try done.
  - intros [|[? ?]]; done.
  - intros [|[? ?]]; done.
Qed.

Lemma create_indexed_db_idempotent_witness :
  let w1 := snd (create_indexed_db idb_config (install_world DbAbsent (fun _ _ => Rejected))) in
  open_store (requestStore idb_config) "readwrite" w1 = (Value tt, w1).
Proof.
  pose proof (create_indexed_db_idempotent
                (install_world DbAbsent (fun _ _ => Rejected))) as (_ & _ & Hopen).
  exact (proj2 (Hopen (or_introl eq_refl))).
Defined.

Lemma install_handler_database w :
  database (snd (install_handler w))
  = match database w with
    | DbAbsent => DbReady []
    | d => d
    end.
Proof.
  rewrite install_handler_run. cbn [snd]. unfold create_indexed_db.
  rewrite (keeps_database_cache_addAll _ _ _), (keeps_database_caches_open _ _).
  destruct (database w) eqn:Hdb; cbn [snd];
    rewrite ?(keeps_database_cache_addAll _ _ _), ?(keeps_database_caches_open _ _);
    done.
Qed.

(** X15. The request store is created only by the upgrade that runs when
    the database is created. If store_request opens the database before
    it exists, the database is created without the store; an install
    handled afterwards fulfils and still does not create it, so that
    every later store_request and every drain stays pending. *)
Theorem store_never_created_after_early_open (w : World) (request : Request) :
  database w = DbAbsent →
  let w1 := snd (store_request request w) in
  let w2 := snd (install_handler w1) in
  fst (store_request request w) = Hangs
  ∧ database w1 = DbNoStore
  ∧ fst (install_handler w1) = Value tt
  ∧ database w2 = DbNoStore
  ∧ (∀ request', fst (store_request request' w2) = Hangs)
  ∧ fst (retry_requests w2) = Hangs.
Proof.
  intros Hdb. cbv zeta.
  assert (H1 : store_request request w = (Hangs, set_database DbNoStore w))
    by (by rewrite store_request_run, Hdb).
  rewrite H1. cbn [fst snd].
  assert (Hd1 : database (set_database DbNoStore w) = DbNoStore) by (by destruct w).
  assert (Hd2 : database (snd (install_handler (set_database DbNoStore w))) = DbNoStore)
    by (by rewrite install_handler_database, Hd1).
  split_ands; try done.
  - by rewrite install_handler_run.
  - intros request'. by rewrite store_request_run, Hd2.
  - by rewrite retry_requests_run, Hd2.
Qed.

Lemma store_never_created_after_early_open_witness :
  let w1 := snd (store_request submit_post (offline_world DbAbsent)) in
  database (snd (install_handler w1)) = DbNoStore
  ∧ fst (retry_requests (snd (install_handler w1))) = Hangs.
Proof.
  pose proof (store_never_created_after_early_open (offline_world DbAbsent)
                submit_post eq_refl) as (_ & _ & _ & Hdb & _ & Hdrain).
  split; [exact Hdb|exact Hdrain].
Defined.

(* --------------------------------------------------------------------- *)
(* 19. From capture to replay                                            *)
(* --------------------------------------------------------------------- *)

(* The Request constructor accepts the init of the replay of a captured
   retry-eligible request whose mode is same-origin or cors. *)
Lemma replay_request_constructible request ts :
  is_request_eligible_for_retry request = true →
  mode request ∈ ["same-origin"; "cors"] →
  credentials request ∈ ["omit"; "same-origin"; "include"] →
  is_Some (replay_request (queued_record request ts))
  ∧ normalize_method (method request) = method request.
Proof.
  intros Hel%eligible_iff Hmode Hcred.
  unfold replay_request, new_Request, replay_init, queued_record.
  destruct request as [u m b h mo cr ca]. cbn in *.
  repeat match goal with
         | H : _ ∈ _ :: _ |- _ => apply elem_of_cons in H as [->|H]
         | H : _ ∈ [] |- _ => by apply elem_of_nil in H
         end; destruct b; vm_compute; eauto.
Qed.

(* A drain over a store holding one record. *)
Lemma retry_requests_single w r :
  database w = DbReady [r] →
  retry_requests w
  = (Value tt,
     match replay_request r with
     | Some q =>
         set_database
           (DbReady (if is_fulfilled (settle (net w (length (sent w)) q)) then [] else [r]))
           (set_sent (sent w ++ [q]) w)
     | None => w
     end).
Proof.
  intros Hdb. rewrite (retry_requests_ready w _ Hdb) by apply NoDup_singleton.
  cbn [replay_outcomes omap list_omap]. destruct (replay_request r) as [q|].
  - cbn [failed_records]. by destruct (is_fulfilled _).
  - cbn [failed_records is_fulfilled]. rewrite app_nil_r.
    destruct w; by simplify_eq/=.
Qed.

(** X16. A retry-eligible request captured offline into an empty store
    and replayed by a later drain. When the Request constructor accepts
    the init of the replay, as it does for the modes same-origin and
    cors, exactly one request goes out, with the url, method, body, mode
    and credentials of the original and with headers that serialize to
    the same name/value object, however the network answers it; the
    store is empty again when that request is answered and keeps the
    record when it is rejected. When the constructor refuses the init,
    as it does for the mode navigate, no request goes out and the record
    stays in the store. *)
Theorem capture_replay_round_trip (w w2 : World) (request : Request) :
  online w = false →
  is_request_eligible_for_retry request = true →
  database w = DbReady [] →
  database w2 = database (snd (fetch_handler request w)) →
  let r := queued_record request (now w) in
  let w3 := snd (retry_requests w2) in
  (∀ q, replay_request r = Some q →
     sent w3 = sent w2 ++ [q]
     ∧ url q = url request ∧ method q = normalize_method (method request)
     ∧ body q = body request
     ∧ mode q = mode request ∧ credentials q = credentials request
     ∧ serialize_headers (headers q) = serialize_headers (headers request)
     ∧ ((∃ v, net w2 (length (sent w2)) q = Fulfilled v) → database w3 = DbReady [])
     ∧ (net w2 (length (sent w2)) q = Rejected → database w3 = DbReady [r]))
  ∧ (replay_request r = None → sent w3 = sent w2 ∧ database w3 = DbReady [r])
  ∧ (mode request ∈ ["same-origin"; "cors"] →
     credentials request ∈ ["omit"; "same-origin"; "include"] →
     is_Some (replay_request r) ∧ normalize_method (method request) = method request)
  ∧ (mode request = "navigate" → replay_request r = None).
Proof.
  intros Hoff Hel Hdb Hdb2. cbv zeta.
  assert (Hcap : database (snd (fetch_handler request w))
                 = DbReady [queued_record request (now w)]).
  { rewrite (fetch_handler_queue _ _ Hoff Hel), store_request_run, Hdb.
    cbn [has_key existsb snd store_insert]. unfold after_sync_register.
    destruct w as [? ? sy ? ? ? ? ? ? ?]; cbn. by destruct sy. }
  rewrite Hcap in Hdb2. rewrite (retry_requests_single w2 _ Hdb2). cbn [snd].
  split; [|split; [|split]].
  - intros q Hq. rewrite Hq.
    destruct (replay_request_fields _ q Hq) as (Hu & Hme & Hb & Hmo & Hc & Hh & _).
    split_ands; try done; try (by destruct w2).
    + intros [v Hv]. rewrite Hv. by destruct w2.
    + intros Hv. rewrite Hv. by destruct w2.
  - intros Hq. by rewrite Hq.
  - by apply replay_request_constructible.
  - intros Hm. by apply replay_request_navigate.
Qed.

Lemma capture_replay_round_trip_witness :
  let w1 := snd (fetch_handler submit_post (offline_world (DbReady []))) in
  let w2 := mkWorld true 2000 SyncGranted (database w1) (caches w1) server_error
                    [] [] [] false in
  let w1' := snd (fetch_handler form_post (offline_world (DbReady []))) in
  (∃ q, sent (snd (retry_requests w2)) = [q]
        ∧ url q = "/submit" ∧ method q = "POST" ∧ mode q = "cors"
        ∧ database (snd (retry_requests w2)) = DbReady [])
  ∧ sent (snd (retry_requests (back_online w1'))) = []
  ∧ database (snd (retry_requests (back_online w1')))
    = DbReady [queued_record form_post 1000].
Proof.
  cbv zeta.
  destruct (capture_replay_round_trip
              (offline_world (DbReady []))
              (mkWorld true 2000 SyncGranted
                 (database (snd (fetch_handler submit_post (offline_world (DbReady [])))))
                 (caches (snd (fetch_handler submit_post (offline_world (DbReady [])))))
                 server_error [] [] [] false)
              submit_post eq_refl eq_refl eq_refl eq_refl)
    as (Hsent & _ & _ & _).
  destruct (capture_replay_round_trip
              (offline_world (DbReady []))
              (back_online (snd (fetch_handler form_post (offline_world (DbReady [])))))
              form_post eq_refl eq_refl eq_refl eq_refl)
    as (_ & Hkept & _ & Hnav).
  split.
  - destruct (Hsent _ eq_refl) as (Hs & Hu & Hm & _ & Hmo & _ & _ & Hok & _).
    eexists. split; [exact Hs|]. split; [exact Hu|]. split; [exact Hm|].
    split; [exact Hmo|]. apply Hok. eexists. reflexivity.
  - exact (Hkept (Hnav eq_refl)).
Defined.

(* --------------------------------------------------------------------- *)
(* 20. Serialized headers                                                *)
(* --------------------------------------------------------------------- *)

Lemma serialize_headers_snoc (h : Headers) e :
  serialize_headers (h ++ [e]) = <[e.1 := e.2]> (serialize_headers h).
Proof. unfold serialize_headers. by rewrite fold_left_app. Qed.

(** X17. serialize_headers keeps, for every header name, the value of
    the last entry with that name, and has no key for a name that does
    not occur. *)
Theorem serialize_headers_last_wins (h : Headers) (k : string) :
  serialize_headers h !! k = snd <$> last (filter (λ e, e.1 = k) h).
Proof.
  induction h as [|e h IH] using rev_ind.
  - apply lookup_empty.
  - rewrite serialize_headers_snoc, filter_app, filter_cons, filter_nil.
    destruct (decide (e.1 = k)) as [<-|Hne].
    + by rewrite lookup_insert_eq, last_snoc.
    + by rewrite lookup_insert_ne, app_nil_r.
Qed.

(** X18. Headers survive the trip through the request store: a header
    list with distinct names is rebuilt from its serialized object up to
    the order of the entries, and a serialized object is unchanged by
    rebuilding the headers and serializing them again. *)
Theorem headers_round_trip (h : Headers) (o : gmap string string) :
  (NoDup (fst <$> h) → new_Headers (serialize_headers h) ≡ₚ h)
  ∧ serialize_headers (new_Headers o) = o.
Proof.
  split; [|apply serialize_new_Headers].
  intros Hnd. unfold serialize_headers, new_Headers.
  rewrite serialize_headers_fold by done.
  rewrite (right_id_L ∅ (∪)). by apply map_to_list_to_map.
Qed.

Lemma headers_round_trip_witness :
  new_Headers (serialize_headers [("accept", "text/html"); ("x-quiz", "7")])
  ≡ₚ [("accept", "text/html"); ("x-quiz", "7")].
Proof.
  apply (proj1 (headers_round_trip [("accept", "text/html"); ("x-quiz", "7")] ∅)).
  apply (bool_decide_unpack _). by vm_compute.
Defined.

(* --------------------------------------------------------------------- *)
(* 21. More on the snapshots                                             *)
(* --------------------------------------------------------------------- *)

Lemma find_none_iff {A} (f : A → bool) (l : list A) :
  List.find f l = None ↔ ∀ x, x ∈ l → f x = false.
Proof.
  induction l as [|a l IH]; cbn.
  - split; [|done]. intros _ x Hx. by apply elem_of_nil in Hx.
  - destruct (f a) eqn:Ha.
    + split; [done|]. intros Hall. rewrite (Hall a) in Ha by left. done.
    + rewrite IH. split.
      * intros Hall x [->|Hx]%elem_of_cons; auto.
      * intros Hall x Hx. apply Hall. by right.
Qed.

Lemma includes_cache_name : includes cache_name cache_name = true.
Proof. reflexivity. Qed.

(** X19. get_cache_storage_names changes nothing and sorts every cache
    name by one test: a name is outdated exactly when it does not
    contain the current cache name, the latest name is a name that
    contains it and is never among the outdated ones, there is no latest
    name exactly when every name is outdated, and the current cache name
    itself is never outdated. *)
Theorem cache_names_classified (w : World) :
  ∃ latest outdated,
    get_cache_storage_names w = (Value (latest, outdated), w)
    ∧ (∀ n, n ∈ outdated ↔ n ∈ fst <$> caches w ∧ includes n cache_name = false)
    ∧ (∀ l, latest = Some l →
         l ∈ fst <$> caches w ∧ includes l cache_name = true ∧ l ∉ outdated)
    ∧ (latest = None ↔ ∀ n, n ∈ fst <$> caches w → n ∈ outdated)
    ∧ cache_name ∉ outdated.
Proof.
  eexists _, _. split; [apply get_cache_storage_names_run|].
  assert (Hout : ∀ n, n ∈ List.filter (λ name, negb (includes name cache_name))
                         (fst <$> caches w)
                      ↔ n ∈ fst <$> caches w ∧ includes n cache_name = false).
  { intros n. rewrite list_elem_of_In, filter_In, negb_true_iff.
    by rewrite <- list_elem_of_In. }
  split; [exact Hout|]. split; [|split].
  - intros l Hl. apply find_some in Hl as [Hin Hinc].
    apply list_elem_of_In in Hin. split_ands; [done|done|].
    rewrite Hout. intros [_ Hf]. congruence.
  - rewrite find_none_iff. split.
    + intros Hall n Hn. apply Hout. auto.
    + intros Hall n Hn. by apply Hout, Hall.
  - rewrite Hout. intros [_ Hf]. by rewrite includes_cache_name in Hf.
Qed.

(** X20. After the activate handler has run, no snapshot is outdated, so
    a PREPARE_CACHES_FOR_UPDATE message received then changes
    nothing. *)
Theorem update_after_activate_noop (w : World) :
  let w1 := snd (activate_handler w) in
  (∃ latest, get_cache_storage_names w1 = (Value (latest, []), w1))
  ∧ message_handler "PREPARE_CACHES_FOR_UPDATE" w1 = (Value tt, w1).
Proof.
  cbv zeta. rewrite activate_handler_run. cbn [snd].
  set (w1 := set_caches _ w).
  assert (Hout : List.filter (λ name, negb (includes name cache_name))
                              (fst <$> caches w1) = []).
  { unfold w1. rewrite caches_set_caches, fmap_fst_filter_name.
    induction (fst <$> caches w) as [|n ns IH]; [done|].
    rewrite filter_cons. destruct (decide (n = cache_name)) as [->|]; [|done].
    cbn [List.filter]. rewrite includes_cache_name. cbn [negb]. exact IH. }
  assert (Hnames : ∃ latest, get_cache_storage_names w1 = (Value (latest, []), w1)).
  { eexists. by rewrite get_cache_storage_names_run, Hout. }
  split; [exact Hnames|].
  destruct Hnames as [latest Hnames].
  change (message_handler "PREPARE_CACHES_FOR_UPDATE" w1) with (update_last_cache w1).
  apply (update_last_cache_noop w1 latest []); [done|by right].
Qed.

(** X21. update_last_cache changes only the caches (nothing is fetched:
    the entries are copied from the current snapshot) and is idempotent:
    a second run fulfils, keeps the snapshot names and leaves every
    snapshot answering every url as after the first run. *)
Theorem update_last_cache_idempotent (w : World) :
  NoDup (fst <$> caches w) →
  let w1 := snd (update_last_cache w) in
  let w2 := snd (update_last_cache w1) in
  fst (update_last_cache w1) = Value tt
  ∧ w1 = set_caches (caches w1) w
  ∧ fst <$> caches w2 = fst <$> caches w1
  ∧ ∀ n u, storage_lookup n (caches w2) ≫= cache_lookup false u
           = storage_lookup n (caches w1) ≫= cache_lookup false u.
Proof.
  intros Hnd. cbv zeta.
  pose proof (get_cache_storage_names_run w) as Hnames.
  set (latest := List.find _ _) in Hnames. set (outdated := List.filter _ _) in Hnames.
  assert (Hcases : (latest = None ∨ outdated = [])
                   ∨ ∃ l o os, latest = Some l ∧ outdated = o :: os).
  { destruct latest as [l|]; [|by left; left].
    destruct outdated as [|o os]; [by left; right|right; eauto]. }
  destruct Hcases as [Hno|(l & o & os & Hl & Ho)].
  - rewrite (update_last_cache_noop w latest outdated Hnames Hno). cbn [snd].
    rewrite (update_last_cache_noop w latest outdated Hnames Hno). cbn [fst snd].
    split_ands; try done. by rewrite set_caches_same.
  - assert (Hfind : List.find (λ name, includes name cache_name) (fst <$> caches w)
                    = Some l) by exact Hl.
    assert (Hfilter : List.filter (λ name, negb (includes name cache_name))
                                  (fst <$> caches w) = o :: os) by exact Ho.
    rewrite Hl, Ho in Hnames.
    assert (Hnd' : NoDup (o :: os)).
    { rewrite <- Hfilter. by apply NoDup_ListNoDup, List.NoDup_filter, NoDup_ListNoDup. }
    pose proof Hfind as Hf. apply find_some in Hf as [Hin Hinc].
    assert (∃ L, storage_lookup l (caches w) = Some L) as [L HL]
      by (by apply storage_lookup_names, list_elem_of_In).
    assert (Hl_out : l ∉ o :: os).
    { rewrite <- Hfilter. intros Hx. apply list_elem_of_In, filter_In in Hx as [_ Hx].
      rewrite Hinc in Hx. discriminate. }
    rewrite (update_last_cache_run w l o os L Hnames HL). cbn [snd].
    set (w1 := set_caches _ w).
    assert (Hc1 : caches w1 = migrate L (fst <$> L) (o :: os) (caches w))
      by apply caches_set_caches.
    assert (Hnames1 : get_cache_storage_names w1 = (Value (Some l, o :: os), w1)).
    { rewrite get_cache_storage_names_run, Hc1, migrate_names. by rewrite Hfind, Hfilter. }
    assert (HL1 : storage_lookup l (caches w1) = Some L).
    { rewrite Hc1, migrate_lookup by done. by rewrite decide_False. }
    rewrite (update_last_cache_run w1 l o os L Hnames1 HL1). cbn [fst snd].
    split; [done|]. split; [done|].
    rewrite caches_set_caches, migrate_names. split; [done|].
    intros n u. rewrite migrate_lookup by done.
    case_decide as Hn; [|done].
    rewrite Hc1, migrate_lookup, decide_True by done.
    destruct (storage_lookup n (caches w)) as [c|]; [|done].
    cbn. rewrite !copy_all_lookup. by destruct (cache_lookup false u L).
Qed.

Lemma update_last_cache_idempotent_witness :
  let w1 := snd (update_last_cache update_world) in
  fst (update_last_cache w1) = Value tt
  ∧ ∀ n u, storage_lookup n (caches (snd (update_last_cache w1))) ≫= cache_lookup false u
           = storage_lookup n (caches w1) ≫= cache_lookup false u.
Proof.
  assert (Hnd : NoDup (fst <$> caches update_world)).
  { apply (bool_decide_unpack _). by vm_compute. }
  pose proof (update_last_cache_idempotent update_world Hnd) as (Hv & _ & _ & Hsame).
  split; [exact Hv|exact Hsame].
Defined.

(* --------------------------------------------------------------------- *)
(* 22. More on installation                                              *)
(* --------------------------------------------------------------------- *)

Lemma cache_addAll_precache_sent h w :
  sent (snd (cache_addAll h precache_requests w)) = sent w ++ precache_requests.
Proof.
  rewrite cache_addAll_precache. cbv zeta.
  destruct (mapM settled_addable _); [rewrite for_of_cache_put_run|]; by destruct w.
Qed.

Lemma create_indexed_db_sent config w :
  sent (snd (create_indexed_db config w)) = sent w.
Proof. unfold create_indexed_db. destruct w as [? ? ? db ? ? ? ? ? ?]. by destruct db. Qed.

(** X22. Whatever the network and the database do, the install handler
    issues exactly one fetch per file or route of the precache list, in
    the order of the list, each a GET for that url with cache mode
    no-cache, and nothing else. *)
Theorem install_handler_requests (w : World) :
  sent (snd (install_handler w)) = sent w ++ precache_requests
  ∧ url <$> precache_requests = files_to_cache
  ∧ Forall (λ q, method q = "GET" ∧ cache q = "no-cache") precache_requests.
Proof.
  split; [|split].
  - rewrite install_handler_run. cbn [snd].
    rewrite create_indexed_db_sent, cache_addAll_precache_sent.
    by destruct (caches_open_frame cache_name w) as [_ ->].
  - unfold precache_requests. rewrite <- list_fmap_compose. apply list_fmap_id.
  - unfold precache_requests. apply Forall_fmap, Forall_true. done.
Qed.

(** X23. A first install (no snapshot yet) in which every precache
    request gets a response that addAll stores (status in 200..299 other
    than 206, no Vary: * among the headers) leaves one snapshot, named
    after the current version, holding for each url of the precache list
    the response the network gave for it; /offline.html is then
    available as the fallback, a database that did not exist has its
    empty request store, and every later GET whose url is a precached
    url, with or without a query string, is answered from that snapshot
    without any fetch. *)
Theorem install_success (w : World) (resp : nat → Response) :
  caches w = [] →
  (∀ i file, files_to_cache !! i = Some file →
     net w (length (sent w) + i)%nat (precache_request file) = Fulfilled (Some (resp i))
     ∧ addAll_accepts (resp i) = true) →
  let w' := snd (install_handler w) in
  caches w' = [(cache_name, zip files_to_cache (resp <$> seq 0 (length files_to_cache)))]
  ∧ offline_fallback w' = Some (resp 6%nat)
  ∧ (database w = DbAbsent → database w' = DbReady [])
  ∧ (∀ i file request w2,
       files_to_cache !! i = Some file →
       method request = "GET" →
       strip_search (url request) = file →
       caches w2 = caches w' →
       fetch_handler request w2
       = (Value (Some (if redirected (resp i) then clean_redirect (resp i) else resp i)),
          w2)).
Proof.
  intros Hempty Hnet. cbv zeta.
  assert (Hcaches : caches (snd (install_handler w))
            = [(cache_name, zip files_to_cache (resp <$> seq 0 (length files_to_cache)))]).
  { apply install_populated; [done|]. intros i file Hfile.
    destruct (Hnet i file Hfile) as [Hn Hok].
    apply settled_addable_Some. by rewrite Hn. }
  split; [exact Hcaches|]. split; [|split].
  - unfold offline_fallback. by rewrite Hcaches.
  - intros Hdb. by rewrite install_handler_database, Hdb.
  - intros i file request w2 Hfile Hm Hu Hc2.
    apply (snapshot_serves resp i file); [by rewrite Hc2|done..].
Qed.

Lemma install_success_witness :
  let w' := snd (install_handler (install_world DbAbsent origin_up)) in
  offline_fallback w' = Some (old_page "/offline.html")
  ∧ database w' = DbReady [].
Proof.
  pose proof (install_success (install_world DbAbsent origin_up)
                (fun i => old_page (nth i files_to_cache EmptyString)) eq_refl)
    as Hok.
  destruct Hok as (_ & Hfb & Hdb & _).
  - intros i file Hfile.
    do 9 (destruct i as [|i]; [injection Hfile as <-; split; reflexivity|]).
    discriminate.
  - split; [exact Hfb|exact (Hdb eq_refl)].
Defined.

(* --------------------------------------------------------------------- *)
(* 23. Never an empty answer once the fallback is cached                 *)
(* --------------------------------------------------------------------- *)

(** X24. Once some snapshot holds /offline.html, the fetch handler
    answers every request with a response, be it the cached match, the
    network's response or the fallback, provided the database is not
    left without its request store and the fetch promise does not fulfil
    without a response. *)
Theorem fetch_handler_answers_with_fallback_cached (w : World) (request : Request) :
  is_Some (offline_fallback w) →
  database w ≠ DbAbsent →
  database w ≠ DbNoStore →
  net w (length (sent w)) request ≠ Fulfilled None →
  ∃ r, fst (fetch_handler request w) = Value (Some r).
Proof.
  intros [page Hpage] Habs Hno Hnet.
  destruct (negb (online w) && is_request_eligible_for_retry request) eqn:Hbr.
  - apply andb_true_iff in Hbr as [Hoff%negb_true_iff Hel].
    exists page. rewrite (fetch_handler_queue _ _ Hoff Hel), store_request_run.
    unfold offline_fallback, after_sync_register in *.
    destruct w as [? nw sy db cs ? ? ? ? ?]; cbn in *.
    destruct db as [| | |recs]; cbn; try done; [by rewrite Hpage|].
    destruct (has_key nw recs); cbn; [by rewrite Hpage|].
    destruct sy; cbn; by rewrite Hpage.
  - rewrite (fetch_handler_live _ _ Hbr). cbv zeta.
    destruct (cached_response request w) as [r|]; [by eexists|].
    destruct (net w (length (sent w)) request) as [[r|]|]; cbn [fst].
    + by eexists.
    + done.
    + exists page. by rewrite Hpage.
Qed.

Lemma fetch_handler_answers_with_fallback_cached_witness :
  ∃ r, fst (fetch_handler quiz_get
              (online_world [(cache_name, [("/offline.html", offline_page)])]
                            (fun _ _ => Rejected)))
       = Value (Some r).
Proof.
  apply fetch_handler_answers_with_fallback_cached;
    [by eexists|discriminate|discriminate|discriminate].
Defined.

(* --------------------------------------------------------------------- *)
(* 24. The drain in general                                              *)
(* --------------------------------------------------------------------- *)

(** X25. A drain over a store with unique keys fulfils whatever the
    outcomes of the replays are. One request goes out for every record
    whose init the Request constructor accepts, in the order of the
    records, with the url, method, body, mode and credentials of the
    record and with headers that serialize to the stored object. The
    store keeps, in their order, exactly the records whose replay
    promise was rejected: one failure neither blocks nor fails another
    replay, and with two records of which one replay is rejected and
    the other fulfils only the failed one is left. *)
Theorem retry_requests_spec (w : World) (recs : list QueuedRequest) :
  database w = DbReady recs →
  store_wf recs →
  let w' := snd (retry_requests w) in
  fst (retry_requests w) = Value tt
  ∧ sent w' = sent w ++ omap replay_request recs
  ∧ (∀ r q, replay_request r = Some q →
       url q = q_url r ∧ method q = normalize_method (q_method r)
       ∧ body q = q_body r ∧ mode q = q_mode r ∧ credentials q = q_credentials r
       ∧ serialize_headers (headers q) = q_headers r)
  ∧ (∃ kept, database w' = DbReady kept ∧ kept `sublist_of` recs)
  ∧ (∀ i r, recs !! i = Some r →
       (r ∈ stored w' ↔ replay_settles w recs i r = rejected))
  ∧ (∀ r1 r2 v, recs = [r1; r2] →
       (replay_settles w recs 0 r1 = rejected →
        replay_settles w recs 1 r2 = fulfilled v →
        database w' = DbReady [r1])
       ∧ (replay_settles w recs 0 r1 = fulfilled v →
          replay_settles w recs 1 r2 = rejected →
          database w' = DbReady [r2])).
Proof.
  intros Hdb Hwf. cbv zeta.
  pose proof (λ i r, retry_requests_keeps w recs i r Hdb Hwf) as Hkeep.
  pose proof (retry_requests_ready_stored w recs Hdb Hwf) as Hst.
  assert (Hdb' : database (snd (retry_requests w))
                 = DbReady (failed_records
                              (replay_outcomes (net w) (length (sent w)) recs) recs)).
  { rewrite (retry_requests_ready w recs Hdb Hwf). by destruct w. }
  split; [by rewrite (retry_requests_ready w recs Hdb Hwf)|].
  split; [apply retry_requests_sent_ready; done|].
  split; [intros r q Hq; destruct (replay_request_fields r q Hq) as (?&?&?&?&?&?&_);
          by split_ands|].
  split; [|split].
  - eexists. split; [exact Hdb'|]. apply failed_records_sublist.
  - exact Hkeep.
  - intros r1 r2 v ->. rewrite Hdb'.
    pose proof (replay_outcomes_lookup w [r1; r2] 0 r1 eq_refl) as H0.
    pose proof (replay_outcomes_lookup w [r1; r2] 1 r2 eq_refl) as H1.
    pose proof (replay_outcomes_length (net w) (length (sent w)) [r1; r2]) as Hlen.
    destruct (replay_outcomes (net w) (length (sent w)) [r1; r2])
      as [|o1 [|o2 [|o3 os]]]; try discriminate Hlen.
    injection H0 as ->. injection H1 as ->.
    split; intros -> ->; reflexivity.
Qed.

Lemma retry_requests_spec_witness :
  let w := drain_world [vote_record 1000 "/vote/1"; vote_record 1001 "/vote/2"]
                       first_fetch_fails in
  database (snd (retry_requests w)) = DbReady [vote_record 1000 "/vote/1"]
  ∧ length (sent (snd (retry_requests w))) = 2%nat.
Proof.
  pose proof (retry_requests_spec
                (drain_world [vote_record 1000 "/vote/1"; vote_record 1001 "/vote/2"]
                             first_fetch_fails)
                _ eq_refl two_records_wf) as (_ & Hsent & _ & _ & _ & Hscen).
  destruct (Hscen _ _ (Some (mkResponse 201 "Created" [] EmptyString false)) eq_refl)
    as [H1 _].
  split; [exact (H1 eq_refl eq_refl)|].
  cbv zeta in Hsent. rewrite Hsent. reflexivity.
Defined.
